(** * Verification of the concept-set expansion, exclusion and name-merge
      pipeline of [multilingual_import.py]

    The development is a shallow embedding of [load_languages] and
    [build_graph] (with its nested [get_all_ancestors] and
    [get_all_descendants]): data frames are lists of records in file order,
    Python sets of concept identifiers are [gset Z], the dictionaries
    [parents], [children], [icd10cm_chinese] and [icd10pcs_chinese] are
    [gmap]s, and the insertion-ordered [language_map] is an association
    list.  Exceptions are values of the type [result]. *)

From Stdlib Require Import ZArith String Ascii.
From stdpp Require Import base option list relations gmap sets strings.

Local Open Scope Z_scope.
Local Open Scope string_scope.
Local Open Scope list_scope.

(** ** Exceptions *)

Inductive Error := IndexError | KeyError | RecursionError.

Inductive result (A : Type) : Type :=
| Ok (a : A)
| Raise (e : Error).
Arguments Ok {A} a.
Arguments Raise {A} e.

#[global] Instance result_ret : MRet result := @Ok.
#[global] Instance result_bind : MBind result := λ A B k r,
  match r with
  | Ok a => k a
  | Raise e => Raise e
  end.

(** A [for] statement whose body may raise: the loop state is threaded
    through the body, the first exception leaves the loop. *)
Fixpoint for_each {A S : Type} (body : A → S → result S) (l : list A) (s : S)
  : result S :=
  match l with
  | [] => Ok s
  | x :: l' => s' ← body x s; for_each body l' s'
  end.

(** [xs[0]]: the first element, [IndexError] on the empty list. *)
Definition first {A : Type} (xs : list A) : result A :=
  match xs with
  | x :: _ => Ok x
  | [] => Raise IndexError
  end.

(** ** What the model takes from the Python runtime

    The order in which a [set] is iterated, the recursion depth that is left
    when a traversal starts, and the two [str] methods used on spreadsheet
    cells.  Every theorem below holds for every runtime. *)
Record Runtime := {
  set_iter : gset Z → list Z;
  set_iter_perm : ∀ s, set_iter s ≡ₚ elements s;
  recursion_limit : nat;
  str_upper : string → string;
  str_strip : string → string
}.

(** [needle in hay] on [str]. *)
Fixpoint contains (needle hay : string) : bool :=
  String.prefix needle hay ||
  match hay with
  | EmptyString => false
  | String _ hay' => contains needle hay'
  end.

(** ** Source tables

    The columns that the run reads are taken as populated; the cells that
    the code itself tests or fills ([standard_concept], the cells of the
    spreadsheet) may be missing. *)

Record Synonym := {
  syn_concept_id : Z;
  concept_synonym_name : string;
  syn_language_concept_id : Z
}.

Record Relationship := {
  concept_id_1 : Z;
  concept_id_2 : Z;
  relationship_id : string
}.

Record Concept := {
  concept_id : Z;
  concept_name : string;
  domain_id : string;
  vocabulary_id : string;
  concept_class_id : string;
  standard_concept : option string;
  concept_code : string
}.

(** A sheet of the workbook: the header of every column (as [str(c)]) and
    the rows, a cell being [None] where [pd.notna] is false and [Some] of its
    [str] otherwise. *)
Record Sheet := {
  columns : list string;
  sheet_rows : list (list (option string))
}.

Record Name := {
  name_concept_id : Z;
  value : string;
  language_concept_id : Z;
  language_name : string
}.

Record Input := {
  languages_df : list (Z * string);
  synonyms_df : list Synonym;
  icd10cm_df : Sheet;
  icd10pcs_df : Sheet;
  concepts_df : list Concept;
  relationships_df : list Relationship
}.

Definition EXCLUDED_DOMAINS : list string := ["Geography"].

(** ** [load_languages]: [dict(zip(ids, names))]

    A later row with a key already present replaces the value and keeps the
    key's position. *)
Fixpoint dict_set (k : Z) (v : string) (d : list (Z * string)) : list (Z * string) :=
  match d with
  | [] => [(k, v)]
  | (k', v') :: d' =>
      if decide (k' = k) then (k, v) :: d' else (k', v') :: dict_set k v d'
  end.

Fixpoint dict_get (k : Z) (d : list (Z * string)) : option string :=
  match d with
  | [] => None
  | (k', v') :: d' => if decide (k' = k) then Some v' else dict_get k d'
  end.

Definition load_languages (rows : list (Z * string)) : list (Z * string) :=
  foldl (λ d kv, dict_set kv.1 kv.2 d) [] rows.

(** ** Steps 1 and 2: target synonyms and the seed set *)

Definition language_map (inp : Input) : list (Z * string) :=
  load_languages (languages_df inp).

Definition target_language_ids (inp : Input) : gset Z :=
  list_to_set (language_map inp).*1.

Definition target_synonyms (inp : Input) : list Synonym :=
  filter (λ s, syn_language_concept_id s ∈ target_language_ids inp)
         (synonyms_df inp).

Definition concepts_with_translations (inp : Input) : gset Z :=
  list_to_set (syn_concept_id <$> target_synonyms inp).

(** ** Step 3: the spreadsheet *)

Definition zhongwen : string :=
  String (ascii_of_nat 228) (String (ascii_of_nat 184) (String (ascii_of_nat 173)
  (String (ascii_of_nat 230) (String (ascii_of_nat 150) (String (ascii_of_nat 135)
   EmptyString))))).

Definition code_columns (marker : string) (sh : Sheet) : list string :=
  filter (λ c, contains "ICD" c && contains marker c) (columns sh).

Definition chinese_columns (rt : Runtime) (marker : string) (sh : Sheet)
  : list string :=
  filter (λ c, contains zhongwen c && contains marker (str_upper rt c))
         (columns sh).

Definition resolve_columns (rt : Runtime) (marker : string) (sh : Sheet)
  : result (string * string) :=
  code_col ← first (code_columns marker sh);
  chinese_col ← first (chinese_columns rt marker sh);
  Ok (code_col, chinese_col).

(** [row[col]] *)
Definition cell (sh : Sheet) (row : list (option string)) (col : string)
  : option string :=
  '(i, _) ← list_find (λ c, c = col) (columns sh); mjoin (row !! i).

Definition chinese_row (rt : Runtime) (sh : Sheet) (code_col chinese_col : string)
    (d : gmap string string) (row : list (option string)) : gmap string string :=
  let code := match cell sh row code_col with
              | Some v => str_strip rt v
              | None => ""
              end in
  match cell sh row chinese_col with
  | Some v =>
      if decide (code ≠ "" ∧ code ≠ "nan") then
        let chinese_name := str_strip rt v in
        if decide (chinese_name ≠ "" ∧ chinese_name ≠ "nan")
        then <[code := chinese_name]> d
        else d
      else d
  | None => d
  end.

Definition chinese_dict (rt : Runtime) (sh : Sheet) (cols : string * string)
  : gmap string string :=
  foldl (chinese_row rt sh cols.1 cols.2) ∅ (sheet_rows sh).

Definition icd10cm_chinese (rt : Runtime) (inp : Input)
  : result (gmap string string) :=
  cols ← resolve_columns rt "CM" (icd10cm_df inp);
  Ok (chinese_dict rt (icd10cm_df inp) cols).

Definition icd10pcs_chinese (rt : Runtime) (inp : Input)
  : result (gmap string string) :=
  cols ← resolve_columns rt "PCS" (icd10pcs_df inp);
  Ok (chinese_dict rt (icd10pcs_df inp) cols).

(** ** Steps 5, 6 and 6b: the expansion *)

Definition related_rels (seeds : gset Z) (rels : list Relationship)
  : list Relationship :=
  filter (λ r, (relationship_id r = "Maps to" ∨ relationship_id r = "Is a") ∧
               (concept_id_1 r ∈ seeds ∨ concept_id_2 r ∈ seeds)) rels.

Definition additional_concepts (seeds : gset Z) (rels : list Relationship)
  : gset Z :=
  list_to_set ((concept_id_1 <$> related_rels seeds rels) ++
               (concept_id_2 <$> related_rels seeds rels)) ∖ seeds.

Definition is_a_rows (rels : list Relationship) : list Relationship :=
  filter (λ r, relationship_id r = "Is a") rels.

(** [if k not in d: d[k] = set()] followed by [d[k].add(v)] *)
Definition add_link (d : gmap Z (gset Z)) (k v : Z) : gmap Z (gset Z) :=
  <[k := default ∅ (d !! k) ∪ {[v]}]> d.

(** The loop that fills [parents] and [children]. *)
Definition lookup_dicts (is_a : list Relationship)
  : gmap Z (gset Z) * gmap Z (gset Z) :=
  foldl (λ pc row,
           let child_id := concept_id_1 row in
           let parent_id := concept_id_2 row in
           (add_link pc.1 child_id parent_id, add_link pc.2 parent_id child_id))
        (∅, ∅) is_a.

Definition parents (rels : list Relationship) : gmap Z (gset Z) :=
  (lookup_dicts (is_a_rows rels)).1.

Definition children (rels : list Relationship) : gmap Z (gset Z) :=
  (lookup_dicts (is_a_rows rels)).2.

(** [get_all_ancestors] and [get_all_descendants] have the same body and
    differ in the dictionary they read.  [visited] is the one set shared by
    all the calls of a traversal; it is kept as the list of the concepts
    passed to [visited.add], latest first, so that adding a concept twice
    would show.  [depth] is the number of nested calls still allowed. *)
Fixpoint traverse (rt : Runtime) (links : gmap Z (gset Z)) (depth : nat)
    (concept_id : Z) (visited : list Z) : result (list Z) :=
  match depth with
  | O => Raise RecursionError
  | S depth' =>
      if decide (concept_id ∈ visited) then Ok visited
      else
        let visited := concept_id :: visited in
        match links !! concept_id with
        | Some next => for_each (traverse rt links depth') (set_iter rt next) visited
        | None => Ok visited
        end
  end.

Definition get_all_ancestors (rt : Runtime) (rels : list Relationship) :=
  traverse rt (parents rels).

Definition get_all_descendants (rt : Runtime) (rels : list Relationship) :=
  traverse rt (children rels).

Definition hierarchy_step (rt : Runtime) (rels : list Relationship)
    (concept_id : Z) (all_hierarchy_concepts : gset Z) : result (gset Z) :=
  ancestors ← get_all_ancestors rt rels (recursion_limit rt) concept_id [];
  let all_hierarchy_concepts := all_hierarchy_concepts ∪ list_to_set ancestors in
  descendants ← get_all_descendants rt rels (recursion_limit rt) concept_id [];
  Ok (all_hierarchy_concepts ∪ list_to_set descendants).

Definition starting_concepts (seeds : gset Z) (rels : list Relationship) : gset Z :=
  seeds ∪ additional_concepts seeds rels.

Definition all_hierarchy_concepts (rt : Runtime) (seeds : gset Z)
    (rels : list Relationship) : result (gset Z) :=
  for_each (hierarchy_step rt rels) (set_iter rt (starting_concepts seeds rels)) ∅.

(** The value of [all_concept_ids] after step 6b. *)
Definition expand_concepts (rt : Runtime) (seeds : gset Z)
    (rels : list Relationship) : result (gset Z) :=
  hierarchy ← all_hierarchy_concepts rt seeds rels;
  let hierarchy_only_concepts := hierarchy ∖ starting_concepts seeds rels in
  Ok (seeds ∪ additional_concepts seeds rels ∪ hierarchy_only_concepts).

(** ** Step 7: the concept table and the domain filter *)

Fixpoint drop_duplicates_from {A K : Type} `{EqDecision K} (subset : A → K)
    (seen : list K) (df : list A) : list A :=
  match df with
  | [] => []
  | x :: df' =>
      if decide (subset x ∈ seen) then drop_duplicates_from subset seen df'
      else x :: drop_duplicates_from subset (subset x :: seen) df'
  end.

(** [df.drop_duplicates(subset=...)]: the first row of every key is kept. *)
Definition drop_duplicates {A K : Type} `{EqDecision K} (subset : A → K)
    (df : list A) : list A :=
  drop_duplicates_from subset [] df.

Definition fillna (c : Concept) : Concept :=
  {| concept_id := concept_id c;
     concept_name := concept_name c;
     domain_id := domain_id c;
     vocabulary_id := vocabulary_id c;
     concept_class_id := concept_class_id c;
     standard_concept := Some (default "" (standard_concept c));
     concept_code := concept_code c |}.

(** The column added at step 7. *)
Definition canonical_name (c : Concept) : string := concept_name c.

(** [final_concepts] before the domain filter. *)
Definition selected_concepts (inp : Input) (ids : gset Z) : list Concept :=
  drop_duplicates concept_id
    (filter (λ c, concept_id c ∈ ids) (fillna <$> concepts_df inp)).

Definition excluded_concepts (inp : Input) (ids : gset Z) : list Concept :=
  filter (λ c, domain_id c ∈ EXCLUDED_DOMAINS) (selected_concepts inp ids).

Definition kept_concepts (inp : Input) (ids : gset Z) : list Concept :=
  filter (λ c, domain_id c ∉ EXCLUDED_DOMAINS) (selected_concepts inp ids).

(** ** Step 8: names *)

Definition chinese_lang_id (lm : list (Z * string)) : result Z :=
  first (filter (λ kv, kv.2 = "Chinese") lm).*1.

Definition excel_name (cm pcs : gmap string string) (lang : Z)
    (names_list : list Name) (concept : Concept) : list Name :=
  let chinese (v : string) :=
    {| name_concept_id := concept_id concept;
       value := v;
       language_concept_id := lang;
       language_name := "Chinese" |} in
  match (if decide (vocabulary_id concept = "ICD10CM")
         then cm !! concept_code concept else None) with
  | Some v => names_list ++ [chinese v]
  | None =>
      match (if decide (vocabulary_id concept = "ICD10PCS")
             then pcs !! concept_code concept else None) with
      | Some v => names_list ++ [chinese v]
      | None => names_list
      end
  end.

Definition excel_names (cm pcs : gmap string string) (lang : Z)
    (final : list Concept) : list Name :=
  foldl (excel_name cm pcs lang) [] final.

(** [final_concepts[final_concepts['concept_id'] == concept_id]['vocabulary_id'].iloc[0]],
    [None] when no row matches. *)
Definition concept_vocab (final : list Concept) (cid : Z) : option string :=
  vocabulary_id <$> head (filter (λ c, concept_id c = cid) final).

Definition synonym_name (lm : list (Z * string)) (ids : gset Z)
    (final : list Concept) (row : Synonym) (names_list : list Name)
  : result (list Name) :=
  let cid := syn_concept_id row in
  if decide (cid ∉ ids) then Ok names_list
  else
    let lang_id := syn_language_concept_id row in
    match dict_get lang_id lm with
    | None => Raise KeyError
    | Some lang_name =>
        let synonym_value := concept_synonym_name row in
        if decide (lang_name = "Chinese" ∧
                   (concept_vocab final cid = Some "ICD10CM" ∨
                    concept_vocab final cid = Some "ICD10PCS"))
        then Ok names_list
        else Ok (names_list ++
                 [{| name_concept_id := cid;
                     value := synonym_value;
                     language_concept_id := lang_id;
                     language_name := lang_name |}])
    end.

Definition name_key (n : Name) : Z * Z * string :=
  (name_concept_id n, language_concept_id n, value n).

(** [pd.DataFrame(names_list)] has no columns when the list is empty, and
    the column accesses on [names_df] then raise. *)
Definition names_frame (names_list : list Name) : result (list Name) :=
  match names_list with
  | [] => Raise KeyError
  | _ => Ok (drop_duplicates name_key names_list)
  end.

(** ** Step 9: edges *)

Definition final_is_a (rels : list Relationship) (final_concept_ids : gset Z)
  : list (Z * Z) :=
  (λ r, (concept_id_1 r, concept_id_2 r)) <$>
  filter (λ r, relationship_id r = "Is a" ∧
               concept_id_1 r ∈ final_concept_ids ∧
               concept_id_2 r ∈ final_concept_ids) rels.

Definition final_maps_to (rels : list Relationship) (final_concept_ids : gset Z)
  : list (Z * Z) :=
  (λ r, (concept_id_1 r, concept_id_2 r)) <$>
  filter (λ r, relationship_id r = "Maps to" ∧
               concept_id_1 r ∈ final_concept_ids ∧
               concept_id_2 r ∈ final_concept_ids ∧
               concept_id_1 r ≠ concept_id_2 r) rels.

(** ** [build_graph], up to the calls of the graph sink *)

Record Graph := {
  expanded_concept_ids : gset Z;
  excluded_concept_ids : gset Z;
  all_concept_ids : gset Z;
  final_concepts : list Concept;
  names_df : list Name;
  is_a_rels : list (Z * Z);
  maps_to_rels : list (Z * Z)
}.

Definition final_concept_ids (g : Graph) : gset Z :=
  list_to_set (concept_id <$> final_concepts g).

Definition build_graph (rt : Runtime) (inp : Input) : result Graph :=
  let lm := language_map inp in
  let concepts_to_import := concepts_with_translations inp in
  cm ← icd10cm_chinese rt inp;
  pcs ← icd10pcs_chinese rt inp;
  expanded ← expand_concepts rt concepts_to_import (relationships_df inp);
  let final := kept_concepts inp expanded in
  let excluded_ids : gset Z :=
    list_to_set (concept_id <$> excluded_concepts inp expanded) in
  let ids := expanded ∖ excluded_ids in
  lang ← chinese_lang_id lm;
  let names_list := excel_names cm pcs lang final in
  names_list ← for_each (synonym_name lm ids final) (target_synonyms inp) names_list;
  names ← names_frame names_list;
  let final_ids : gset Z := list_to_set (concept_id <$> final) in
  Ok {| expanded_concept_ids := expanded;
        excluded_concept_ids := excluded_ids;
        all_concept_ids := ids;
        final_concepts := final;
        names_df := names;
        is_a_rels := final_is_a (relationships_df inp) final_ids;
        maps_to_rels := final_maps_to (relationships_df inp) final_ids |}.

(** ** A reference runtime and the end-to-end scenario *)

Definition ascii_upper (a : ascii) : ascii :=
  let n := nat_of_ascii a in
  if (97 <=? n)%nat && (n <=? 122)%nat then ascii_of_nat (n - 32) else a.

Fixpoint upper (s : string) : string :=
  match s with
  | EmptyString => EmptyString
  | String a s' => String (ascii_upper a) (upper s')
  end.

Definition is_space (a : ascii) : bool :=
  let n := nat_of_ascii a in
  ((9 <=? n)%nat && (n <=? 13)%nat) || (n =? 32)%nat.

Fixpoint lstrip (s : string) : string :=
  match s with
  | EmptyString => EmptyString
  | String a s' => if is_space a then lstrip s' else s
  end.

Fixpoint rstrip (s : string) : string :=
  match s with
  | EmptyString => EmptyString
  | String a s' =>
      match rstrip s' with
      | EmptyString => if is_space a then EmptyString else String a EmptyString
      | t => String a t
      end
  end.

Definition py (limit : nat) : Runtime :=
  {| set_iter := elements;
     set_iter_perm := λ s, Permutation_refl (elements s);
     recursion_limit := limit;
     str_upper := upper;
     str_strip := λ s, rstrip (lstrip s) |}.

Definition concept (id : Z) (vocab domain code : string) : Concept :=
  {| concept_id := id; concept_name := "concept"; domain_id := domain;
     vocabulary_id := vocab; concept_class_id := "Clinical Finding";
     standard_concept := None; concept_code := code |}.

Definition is_a (c p : Z) : Relationship :=
  {| concept_id_1 := c; concept_id_2 := p; relationship_id := "Is a" |}.

Definition maps_to (c p : Z) : Relationship :=
  {| concept_id_1 := c; concept_id_2 := p; relationship_id := "Maps to" |}.

Definition synonym (c : Z) (text : string) (lang : Z) : Synonym :=
  {| syn_concept_id := c; concept_synonym_name := text;
     syn_language_concept_id := lang |}.

Definition cm_sheet (rows : list (list (option string))) : Sheet :=
  {| columns := ["ICD-10-CM"; "CM " +:+ zhongwen]; sheet_rows := rows |}.

Definition pcs_sheet (rows : list (list (option string))) : Sheet :=
  {| columns := ["ICD-10-PCS"; "PCS " +:+ zhongwen]; sheet_rows := rows |}.

Definition zh : Z := 4182948.
Definition de : Z := 4182504.

Definition scenario : Input :=
  {| languages_df := [(zh, "Chinese"); (de, "German")];
     synonyms_df := [synonym 1 "X" zh];
     icd10cm_df := cm_sheet [];
     icd10pcs_df := pcs_sheet [];
     concepts_df := [concept 1 "SNOMED" "Condition" "c1";
                     concept 2 "SNOMED" "Condition" "c2";
                     concept 3 "SNOMED" "Geography" "c3"];
     relationships_df := [is_a 1 2; is_a 3 1] |}.

(** Codes with and without a spreadsheet entry, a synonym of a concept (9)
    and a parent (8) that the concept file does not have, and a maps-to row
    onto itself. *)
Definition icd_sample : Input :=
  {| languages_df := [(zh, "Chinese"); (de, "German")];
     synonyms_df := [synonym 10 "Y" zh; synonym 10 "Cholera" de;
                     synonym 11 "Z" zh; synonym 9 "Waise" de;
                     synonym 1 "S" zh];
     icd10cm_df := cm_sheet [[Some "A00"; Some " X "]; [None; Some "W"]];
     icd10pcs_df := pcs_sheet [[Some "0016070"; Some "P"]];
     concepts_df := [concept 10 "ICD10CM" "Condition" "A00";
                     concept 11 "ICD10CM" "Condition" "B99";
                     concept 12 "ICD10PCS" "Procedure" "0016070";
                     concept 1 "SNOMED" "Condition" "c1"];
     relationships_df := [maps_to 10 1; maps_to 1 1; maps_to 12 1; is_a 1 8] |}.

(** A descendant of the seed with a second parent. *)
Definition second_parent : Input :=
  {| languages_df := [(zh, "Chinese"); (de, "German")];
     synonyms_df := [synonym 1 "Herz" de];
     icd10cm_df := cm_sheet [];
     icd10pcs_df := pcs_sheet [];
     concepts_df := [concept 1 "SNOMED" "Condition" "c1";
                     concept 2 "SNOMED" "Condition" "c2";
                     concept 3 "SNOMED" "Condition" "c3";
                     concept 4 "SNOMED" "Condition" "c4"];
     relationships_df := [is_a 2 1; is_a 3 2; is_a 3 4] |}.

(** The cycle 1 → 2 → 3 → 1 with a further parent 4 of 3 and a further
    child 5 of 1. *)
Definition cycle : list Relationship :=
  [is_a 1 2; is_a 2 3; is_a 3 1; is_a 3 4; is_a 5 1].

(** A workbook whose first sheet has no Chinese column. *)
Definition english_only : Input :=
  {| languages_df := languages_df scenario;
     synonyms_df := synonyms_df scenario;
     icd10cm_df := {| columns := ["ICD-10-CM"; "CM English"]; sheet_rows := [] |};
     icd10pcs_df := pcs_sheet [];
     concepts_df := concepts_df scenario;
     relationships_df := relationships_df scenario |}.

Definition name (cid : Z) (text : string) (lang : Z) (lang_name : string) : Name :=
  {| name_concept_id := cid; value := text;
     language_concept_id := lang; language_name := lang_name |}.

(** What the three inputs give. *)
Definition scenario_graph : Graph :=
  {| expanded_concept_ids := list_to_set [1; 2; 3];
     excluded_concept_ids := {[3]};
     all_concept_ids := list_to_set [1; 2];
     final_concepts := fillna <$> [concept 1 "SNOMED" "Condition" "c1";
                                   concept 2 "SNOMED" "Condition" "c2"];
     names_df := [name 1 "X" zh "Chinese"];
     is_a_rels := [(1, 2)];
     maps_to_rels := [] |}.

Definition icd_sample_graph : Graph :=
  {| expanded_concept_ids := list_to_set [1; 8; 9; 10; 11; 12];
     excluded_concept_ids := ∅;
     all_concept_ids := list_to_set [1; 8; 9; 10; 11; 12];
     final_concepts := fillna <$> concepts_df icd_sample;
     names_df := [name 10 "X" zh "Chinese"; name 12 "P" zh "Chinese";
                  name 10 "Cholera" de "German"; name 9 "Waise" de "German";
                  name 1 "S" zh "Chinese"];
     is_a_rels := [];
     maps_to_rels := [(10, 1); (12, 1)] |}.

Definition second_parent_graph : Graph :=
  {| expanded_concept_ids := list_to_set [1; 2; 3];
     excluded_concept_ids := ∅;
     all_concept_ids := list_to_set [1; 2; 3];
     final_concepts := fillna <$> [concept 1 "SNOMED" "Condition" "c1";
                                   concept 2 "SNOMED" "Condition" "c2";
                                   concept 3 "SNOMED" "Condition" "c3"];
     names_df := [name 1 "Herz" de "German"];
     is_a_rels := [(2, 1); (3, 2)];
     maps_to_rels := [] |}.

Definition icd_sample_cm : gmap string string := {[ "A00" := "X" ]}.
Definition icd_sample_pcs : gmap string string := {[ "0016070" := "P" ]}.


(** * Vocabulary of the statements *)

(** [y] is in the set that the dictionary [links] holds for [x]. *)
Definition link (links : gmap Z (gset Z)) (x y : Z) : Prop :=
  ∃ next, links !! x = Some next ∧ y ∈ next.

(** [visited'] is [visited] with new concepts in front, each of them
    reached from a root and with all its links inside [visited']. *)
Definition grown (links : gmap Z (gset Z)) (roots : list Z)
    (visited visited' : list Z) : Prop :=
  ∃ new, visited' = new ++ visited ∧
    (NoDup visited → NoDup visited') ∧
    (∀ x, x ∈ new → ∃ r, r ∈ roots ∧ rtc (link links) r x) ∧
    (∀ x y, x ∈ new → link links x y → y ∈ visited') ∧
    (∀ r, r ∈ roots → r ∈ visited').

(** The relationship table has an is-a row from [c] to [p]. *)
Definition is_a_edge (rels : list Relationship) (c p : Z) : Prop :=
  ∃ r, r ∈ rels ∧ relationship_id r = "Is a" ∧
       concept_id_1 r = c ∧ concept_id_2 r = p.

(** The reverse reading of the same rows: [c] is a child of [p]. *)
Definition has_child (rels : list Relationship) (p c : Z) : Prop :=
  is_a_edge rels c p.

(** The relationship table has a maps-to row from [c] to [p]. *)
Definition maps_to_edge (rels : list Relationship) (c p : Z) : Prop :=
  ∃ r, r ∈ rels ∧ relationship_id r = "Maps to" ∧
       concept_id_1 r = c ∧ concept_id_2 r = p.

(** Linked by one is-a or maps-to row, in either direction. *)
Definition directly_linked (rels : list Relationship) (a b : Z) : Prop :=
  is_a_edge rels a b ∨ is_a_edge rels b a ∨
  maps_to_edge rels a b ∨ maps_to_edge rels b a.

(** The seed set with the concepts one row away from a seed. *)
Definition one_hop (seeds : gset Z) (rels : list Relationship) (c : Z) : Prop :=
  c ∈ seeds ∨ ∃ s, s ∈ seeds ∧ directly_linked rels s c.

(** The row of the concept file that describes [cid]: the first one, as
    [drop_duplicates] keeps it. *)
Definition concept_row (inp : Input) (cid : Z) : option Concept :=
  head (filter (λ c, concept_id c = cid) (concepts_df inp)).

Definition is_icd10 (vocab : option string) : Prop :=
  vocab = Some "ICD10CM" ∨ vocab = Some "ICD10PCS".

(** The Chinese name that the spreadsheet gives to a concept, through the
    sheet of the concept's vocabulary and the concept's code. *)
Definition spreadsheet_name (cm pcs : gmap string string) (c : Concept)
  : option string :=
  if decide (vocabulary_id c = "ICD10CM") then cm !! concept_code c
  else if decide (vocabulary_id c = "ICD10PCS") then pcs !! concept_code c
  else None.

(** The entry that the first loop of step 8 appends for a concept. *)
Definition excel_entry (cm pcs : gmap string string) (lang : Z) (c : Concept)
  : option Name :=
  (λ v, {| name_concept_id := concept_id c;
           value := v;
           language_concept_id := lang;
           language_name := "Chinese" |}) <$> spreadsheet_name cm pcs c.

(** The synonym row as a name, unmodified. *)
Definition synonym_to_name (row : Synonym) (lang_name : string) : Name :=
  {| name_concept_id := syn_concept_id row;
     value := concept_synonym_name row;
     language_concept_id := syn_language_concept_id row;
     language_name := lang_name |}.

(** The entry that the second loop of step 8 appends for a synonym row. *)
Definition synonym_entry (lm : list (Z * string)) (ids : gset Z)
    (final : list Concept) (row : Synonym) : option Name :=
  if decide (syn_concept_id row ∈ ids) then
    lang_name ← dict_get (syn_language_concept_id row) lm;
    if decide (lang_name = "Chinese" ∧
               is_icd10 (concept_vocab final (syn_concept_id row)))
    then None
    else Some (synonym_to_name row lang_name)
  else None.

(** Reached by the upward traversal from a seed or a one-hop concept. *)
Definition reached_upward (inp : Input) (c : Z) : Prop :=
  ∃ s, one_hop (concepts_with_translations inp) (relationships_df inp) s ∧
       rtc (is_a_edge (relationships_df inp)) s c.

(** Closure completeness, as the specification words it. *)
Definition closure_complete (inp : Input) (g : Graph) : Prop :=
  ∀ c p, c ∈ final_concept_ids g → is_a_edge (relationships_df inp) c p →
         p ∈ final_concept_ids g ∨ p ∈ excluded_concept_ids g.

(** [n] is a Chinese name of concept [c] with text [v]. *)
Definition chinese_name_of (c : Concept) (v : string) (n : Name) : Prop :=
  name_concept_id n = concept_id c ∧ language_name n = "Chinese" ∧ value n = v.

(** The precedence rule, as the specification words it: the spreadsheet
    name replaces the Chinese synonym of a concept that has both, and every
    other synonym row of a final concept is taken as it is. *)
Definition precedence_as_stated (inp : Input) (g : Graph)
    (cm pcs : gmap string string) : Prop :=
  (∀ c row X, c ∈ final_concepts g → row ∈ target_synonyms inp →
     syn_concept_id row = concept_id c →
     dict_get (syn_language_concept_id row) (language_map inp) = Some "Chinese" →
     spreadsheet_name cm pcs c = Some X →
     (∃ n, n ∈ names_df g ∧ chinese_name_of c X n) ∧
     ¬ ∃ n, n ∈ names_df g ∧ chinese_name_of c (concept_synonym_name row) n) ∧
  (∀ c row lang_name, c ∈ final_concepts g → row ∈ target_synonyms inp →
     syn_concept_id row = concept_id c →
     dict_get (syn_language_concept_id row) (language_map inp) = Some lang_name →
     ¬ (lang_name = "Chinese" ∧ is_Some (spreadsheet_name cm pcs c)) →
     synonym_to_name row lang_name ∈ names_df g).


(** The concepts that occur in an is-a row. *)
Definition hierarchy_nodes (rels : list Relationship) : gset Z :=
  list_to_set ((concept_id_1 <$> is_a_rows rels) ++
               (concept_id_2 <$> is_a_rows rels)).

(** * The batch loops of the graph builder *)

Definition batch_size : nat := 1000.

Fixpoint range_from (fuel start stop step : nat) : list nat :=
  match fuel with
  | O => []
  | S fuel' =>
      if decide (start < stop)%nat
      then start :: range_from fuel' (start + step) stop step
      else []
  end.

(** [range(0, stop, step)] for a positive [step]; it has at most [stop]
    elements. *)
Definition range (stop step : nat) : list nat := range_from stop 0 stop step.

(** [df.iloc[i:j]] *)
Definition iloc {A : Type} (df : list A) (i j : nat) : list A :=
  take (j - i) (drop i df).

(** The frames [df.iloc[i:i+batch_size]] of the batch loops, in order. *)
Definition batches {A : Type} (df : list A) : list (list A) :=
  (λ i, iloc df i (i + batch_size)) <$> range (length df) batch_size.

(** The number of batches that the loops log. *)
Definition total_batches {A : Type} (df : list A) : nat :=
  ((length df + batch_size - 1) / batch_size)%nat.

(** A runtime that iterates sets in the opposite order. *)
Definition py_reversed (limit : nat) : Runtime :=
  {| set_iter := λ s, reverse (elements s);
     set_iter_perm := λ s, reverse_Permutation (elements s);
     recursion_limit := limit;
     str_upper := upper;
     str_strip := λ s, rstrip (lstrip s) |}.

(** The code and the name that a row of a sheet contributes to the
    dictionary, if it contributes. *)
Definition sheet_entry (rt : Runtime) (sh : Sheet) (cols : string * string)
    (row : list (option string)) : option (string * string) :=
  code ← str_strip rt <$> cell sh row cols.1;
  chinese_name ← str_strip rt <$> cell sh row cols.2;
  if decide ((code ≠ "" ∧ code ≠ "nan") ∧
             (chinese_name ≠ "" ∧ chinese_name ≠ "nan"))
  then Some (code, chinese_name) else None.

(** A header that passes the test of the code column. *)
Definition code_header (marker c : string) : Prop :=
  contains "ICD" c && contains marker c.

(** A header that passes the test of the Chinese column. *)
Definition chinese_header (rt : Runtime) (marker c : string) : Prop :=
  contains zhongwen c && contains marker (str_upper rt c).

(** A language file without Chinese, and a sheet in which two headers
    pass each test. *)
Definition german_only : Input :=
  {| languages_df := [(de, "German")];
     synonyms_df := [synonym 1 "Herz" de];
     icd10cm_df := cm_sheet [];
     icd10pcs_df := pcs_sheet [];
     concepts_df := concepts_df scenario;
     relationships_df := relationships_df scenario |}.

Definition wide_sheet : Sheet :=
  {| columns := ["No"; "ICD-10-CM"; "ICD-10-CM 2014"; "cm " +:+ zhongwen;
                 "CM " +:+ zhongwen];
     sheet_rows := [[Some "1"; Some "A00"; Some "A000"; Some "first"; Some "second"];
                    [Some "2"; Some " A00 "; None; Some "later"; None];
                    [Some "3"; Some "nan"; None; Some "dropped"; None]] |}.

(** Synonyms in a language that the language file does not list. *)
Definition no_translations : Input :=
  {| languages_df := languages_df scenario;
     synonyms_df := [synonym 1 "Heart" 4180186; synonym 2 "Organ" 4180186];
     icd10cm_df := cm_sheet [];
     icd10pcs_df := pcs_sheet [];
     concepts_df := concepts_df scenario;
     relationships_df := relationships_df scenario |}.

(** * Proofs *)

(** ** Exceptions and loops *)

Lemma bind_Ok {A B : Type} (r : result A) (k : A → result B) (b : B) :
  r ≫= k = Ok b ↔ ∃ a, r = Ok a ∧ k a = Ok b.
Proof.
  destruct r as [a|e]; simpl; split.
  - intros H. by exists a.
  - by intros (a' & [= ->] & H).
  - discriminate.
  - by intros (a' & [=] & _).
Qed.

Lemma for_each_cons {A S : Type} (body : A → S → result S) x l s s' :
  for_each body (x :: l) s = Ok s' ↔
  ∃ s1, body x s = Ok s1 ∧ for_each body l s1 = Ok s'.
Proof. simpl. apply bind_Ok. Qed.

(** Loop invariant rule. *)
Lemma for_each_invariant {A S : Type} (I : S → Prop) (body : A → S → result S) l :
  (∀ x s s', x ∈ l → I s → body x s = Ok s' → I s') →
  ∀ s s', I s → for_each body l s = Ok s' → I s'.
Proof.
  induction l as [|x l IH]; intros Hbody s s' Hs Hrun.
  - by injection Hrun as <-.
  - apply for_each_cons in Hrun as (s1 & H1 & Hrest).
    eapply IH; [| |exact Hrest].
    + intros y t t' Hy. apply Hbody. by right.
    + eapply Hbody; [left|exact Hs|exact H1].
Qed.

(** ** The traversal *)

Section traversal.
Context (rt : Runtime) (links : gmap Z (gset Z)).

Lemma grown_nil visited : grown links [] visited visited.
Proof.
  exists []. split_and!; try done.
  - intros x Hx. by apply elem_of_nil in Hx.
  - intros x y Hx. by apply elem_of_nil in Hx.
  - intros r Hr. by apply elem_of_nil in Hr.
Qed.

Lemma grown_cons p l v0 v1 v2 :
  grown links [p] v0 v1 → grown links l v1 v2 → grown links (p :: l) v0 v2.
Proof.
  intros (n1 & -> & Hnd1 & Hreach1 & Hclosed1 & Hroot1)
         (n2 & -> & Hnd2 & Hreach2 & Hclosed2 & Hroot2).
  exists (n2 ++ n1). split_and!.
  - by rewrite app_assoc.
  - auto.
  - intros x [Hx|Hx]%elem_of_app.
    + destruct (Hreach2 x Hx) as (r & Hr & Hrx). exists r. split; [by right|done].
    + destruct (Hreach1 x Hx) as (r & Hr & Hrx).
      apply list_elem_of_singleton in Hr as ->. exists p. split; [by left|done].
  - intros x y [Hx|Hx]%elem_of_app Hxy; [by eapply Hclosed2|].
    apply elem_of_app. right. by eapply Hclosed1.
  - intros r [->|Hr]%elem_of_cons; [|by apply Hroot2].
    apply elem_of_app. right. apply Hroot1. by left.
Qed.

Lemma for_each_grown (f : Z → list Z → result (list Z)) l :
  (∀ p v v', f p v = Ok v' → grown links [p] v v') →
  ∀ v v', for_each f l v = Ok v' → grown links l v v'.
Proof.
  intros Hf. induction l as [|p l IH]; intros v v' Hrun.
  - injection Hrun as <-. apply grown_nil.
  - apply for_each_cons in Hrun as (v1 & H1 & Hrest).
    eapply grown_cons; eauto.
Qed.

Lemma traverse_grown depth : ∀ c visited visited',
  traverse rt links depth c visited = Ok visited' → grown links [c] visited visited'.
Proof.
  induction depth as [|depth IH]; intros c visited visited' Hrun; [done|].
  simpl in Hrun. destruct (decide (c ∈ visited)) as [Hin|Hnin].
  - injection Hrun as <-. exists []. split_and!; try done.
    + intros x Hx. by apply elem_of_nil in Hx.
    + intros x y Hx. by apply elem_of_nil in Hx.
    + by intros r ->%list_elem_of_singleton.
  - destruct (links !! c) as [next|] eqn:Hnext.
    + apply (for_each_grown _ _ IH) in Hrun
        as (new & -> & Hnd & Hreach & Hclosed & Hroot).
      exists (new ++ [c]). split_and!.
      * by rewrite <- app_assoc.
      * intros Hv. apply Hnd. by constructor.
      * intros x [Hx|Hx%list_elem_of_singleton]%elem_of_app; [|subst x].
        -- destruct (Hreach x Hx) as (p & Hp & Hpx).
           exists c. split; [by left|]. eapply rtc_l; [|exact Hpx].
           exists next. split; [done|].
           apply elem_of_elements. by rewrite <- (set_iter_perm rt next).
        -- exists c. split; [by left|apply rtc_refl].
      * intros x y [Hx|Hx%list_elem_of_singleton]%elem_of_app Hxy.
        -- by eapply Hclosed.
        -- subst x. destruct Hxy as (next' & Hn' & Hy). rewrite Hnext in Hn'.
           injection Hn' as <-. apply Hroot.
           rewrite (set_iter_perm rt next). by apply elem_of_elements.
      * intros r ->%list_elem_of_singleton. apply elem_of_app. right. by left.
    + injection Hrun as <-. exists [c]. split_and!; try done.
      * intros Hv. by constructor.
      * intros x Hx%list_elem_of_singleton. subst x.
        exists c. split; [by left|apply rtc_refl].
      * intros x y Hx%list_elem_of_singleton (next & Hn & _). subst x. congruence.
      * by intros r ->%list_elem_of_singleton; left.
Qed.

(** A traversal that starts with an empty [visited] returns exactly the
    concepts reachable along the links, each of them once. *)
Lemma traverse_reachable depth c visited :
  traverse rt links depth c [] = Ok visited →
  NoDup visited ∧ ∀ x, x ∈ visited ↔ rtc (link links) c x.
Proof.
  intros (new & Heq & Hnd & Hreach & Hclosed & Hroot)%traverse_grown.
  rewrite app_nil_r in Heq. subst new. split; [apply Hnd; constructor|].
  intros x. split.
  - intros Hx. destruct (Hreach x Hx) as (r & ->%list_elem_of_singleton & Hr).
    exact Hr.
  - intros Hcx. revert x Hcx. apply (rtc_ind_r (λ x, x ∈ visited) c).
    + apply Hroot. by left.
    + intros y z _ Hyz Hy. by eapply Hclosed.
Qed.

(** The nesting of calls is bounded by the number of concepts that can
    still be added to [visited]. *)
Lemma traverse_total (U : gset Z) :
  (∀ x y, x ∈ U → link links x y → y ∈ U) →
  ∀ depth c visited,
    c ∈ U → (size (U ∖ list_to_set visited) < depth)%nat →
    ∃ visited', traverse rt links depth c visited = Ok visited'.
Proof.
  intros Hclosed. induction depth as [|depth IH]; intros c visited Hc Hsize;
    [lia|].
  simpl. destruct (decide (c ∈ visited)) as [Hin|Hnin]; [by eexists|].
  destruct (links !! c) as [next|] eqn:Hnext; [|by eexists].
  assert (size (U ∖ list_to_set (c :: visited)) < depth)%nat as Hless.
  { assert (U ∖ list_to_set (c :: visited) ⊂ U ∖ (list_to_set visited : gset Z))
      as Hsub.
    { split; [set_solver|]. intros Hsub. specialize (Hsub c).
      rewrite !elem_of_difference, !elem_of_list_to_set in Hsub.
      destruct Hsub as [_ Hsub]; [done|]. apply Hsub. by left. }
    apply subset_size in Hsub. lia. }
  assert (∀ p, p ∈ set_iter rt next → p ∈ U) as Hnext_in.
  { intros p Hp. apply (Hclosed c p Hc). exists next. split; [done|].
    apply elem_of_elements. by rewrite <- (set_iter_perm rt next). }
  clear Hnext. revert Hless Hnext_in. generalize (c :: visited).
  induction (set_iter rt next) as [|p l IHl]; intros v Hless Hl.
  - by eexists.
  - destruct (IH p v) as [v1 Hv1]; [apply Hl; by left|done|].
    destruct (IHl v1) as [v2 Hv2].
    + apply traverse_grown in Hv1 as (new & -> & _).
      assert (U ∖ list_to_set (new ++ v) ⊆ U ∖ (list_to_set v : gset Z))
        as Hsub by set_solver.
      apply subseteq_size in Hsub. lia.
    + intros q Hq. apply Hl. by right.
    + exists v2. apply for_each_cons. eauto.
Qed.
End traversal.

(** ** The dictionaries [parents] and [children] *)

Lemma add_link_link d k v x y :
  link (add_link d k v) x y ↔ link d x y ∨ (x = k ∧ y = v).
Proof.
  unfold link, add_link. destruct (decide (x = k)) as [->|Hne].
  - rewrite lookup_insert_eq. split.
    + intros (next & [= <-] & [Hy|Hy%elem_of_singleton]%elem_of_union);
        [left|by right].
      destruct (d !! k) as [old|]; simpl in Hy; [by exists old|].
      by apply not_elem_of_empty in Hy.
    + intros [(next & Hn & Hy)|[_ ->]]; eexists; (split; [done|]).
      * rewrite Hn. simpl. apply elem_of_union. by left.
      * apply elem_of_union. right. by apply elem_of_singleton.
  - rewrite lookup_insert_ne by done. split; [by left|].
    intros [H|[? _]]; done.
Qed.

Lemma add_link_is_Some d k v x :
  is_Some (add_link d k v !! x) ↔ is_Some (d !! x) ∨ x = k.
Proof.
  unfold add_link. destruct (decide (x = k)) as [->|Hne].
  - rewrite lookup_insert_eq. split; [by right|by eexists].
  - rewrite lookup_insert_ne by done. split; [by left|]. by intros [H|H].
Qed.

Lemma lookup_dicts_snoc rows row :
  lookup_dicts (rows ++ [row]) =
  (add_link (lookup_dicts rows).1 (concept_id_1 row) (concept_id_2 row),
   add_link (lookup_dicts rows).2 (concept_id_2 row) (concept_id_1 row)).
Proof. unfold lookup_dicts. by rewrite foldl_app. Qed.

Lemma lookup_dicts_link rows x y :
  (link (lookup_dicts rows).1 x y ↔
     ∃ r, r ∈ rows ∧ concept_id_1 r = x ∧ concept_id_2 r = y) ∧
  (link (lookup_dicts rows).2 x y ↔
     ∃ r, r ∈ rows ∧ concept_id_2 r = x ∧ concept_id_1 r = y).
Proof.
  induction rows as [|row rows [IH1 IH2]] using rev_ind.
  - split; (split; [intros (next & Hn & _)|intros (r & Hr & _)]).
    + cbn in Hn. by rewrite lookup_empty in Hn.
    + by apply elem_of_nil in Hr.
    + cbn in Hn. by rewrite lookup_empty in Hn.
    + by apply elem_of_nil in Hr.
  - rewrite lookup_dicts_snoc. simpl. rewrite !add_link_link, IH1, IH2.
    split; (split; [intros [(r & Hr & H)|[-> ->]]|intros (r & Hr & H)]).
    + exists r. split; [apply elem_of_app; by left|done].
    + exists row. split; [apply elem_of_app; right; by left|done].
    + apply elem_of_app in Hr as [Hr|Hr%list_elem_of_singleton].
      * left. by exists r.
      * subst r. right. by destruct H.
    + exists r. split; [apply elem_of_app; by left|done].
    + exists row. split; [apply elem_of_app; right; by left|done].
    + apply elem_of_app in Hr as [Hr|Hr%list_elem_of_singleton].
      * left. by exists r.
      * subst r. right. by destruct H.
Qed.

Lemma lookup_dicts_is_Some rows x :
  (is_Some ((lookup_dicts rows).1 !! x) → ∃ r, r ∈ rows ∧ concept_id_1 r = x) ∧
  (is_Some ((lookup_dicts rows).2 !! x) → ∃ r, r ∈ rows ∧ concept_id_2 r = x).
Proof.
  induction rows as [|row rows [IH1 IH2]] using rev_ind.
  - split; intros [s Hs]; cbn in Hs; by rewrite lookup_empty in Hs.
  - rewrite lookup_dicts_snoc. simpl. rewrite !add_link_is_Some.
    split; (intros [H| ->]; [|exists row; split; [apply elem_of_app; right; by left|done]]).
    + destruct (IH1 H) as (r & Hr & Hx). exists r.
      split; [apply elem_of_app; by left|done].
    + destruct (IH2 H) as (r & Hr & Hx). exists r.
      split; [apply elem_of_app; by left|done].
Qed.

Lemma elem_of_is_a_rows rels r :
  r ∈ is_a_rows rels ↔ r ∈ rels ∧ relationship_id r = "Is a".
Proof. unfold is_a_rows. rewrite list_elem_of_filter. tauto. Qed.

Lemma parents_link rels c p : link (parents rels) c p ↔ is_a_edge rels c p.
Proof.
  unfold parents, is_a_edge.
  rewrite (proj1 (lookup_dicts_link (is_a_rows rels) c p)).
  split; intros (r & Hr & H); exists r.
  - apply elem_of_is_a_rows in Hr. tauto.
  - rewrite elem_of_is_a_rows. tauto.
Qed.

Lemma children_link rels p c : link (children rels) p c ↔ has_child rels p c.
Proof.
  unfold children, has_child, is_a_edge.
  rewrite (proj2 (lookup_dicts_link (is_a_rows rels) p c)).
  split; intros (r & Hr & H); exists r.
  - apply elem_of_is_a_rows in Hr. tauto.
  - rewrite elem_of_is_a_rows. tauto.
Qed.

Lemma elem_of_hierarchy_nodes rels x :
  x ∈ hierarchy_nodes rels ↔
  ∃ r, r ∈ is_a_rows rels ∧ (concept_id_1 r = x ∨ concept_id_2 r = x).
Proof.
  unfold hierarchy_nodes.
  rewrite elem_of_list_to_set, elem_of_app, !list_elem_of_fmap. split.
  - intros [(r & -> & Hr)|(r & -> & Hr)]; exists r; auto.
  - intros (r & Hr & [<-|<-]); [left|right]; by exists r.
Qed.

Lemma is_a_edge_nodes rels c p :
  is_a_edge rels c p → c ∈ hierarchy_nodes rels ∧ p ∈ hierarchy_nodes rels.
Proof.
  intros (r & Hr & Hid & <- & <-).
  split; apply elem_of_hierarchy_nodes; exists r;
    (split; [by apply elem_of_is_a_rows|auto]).
Qed.

Lemma rtc_iff {A : Type} (R1 R2 : relation A) x y :
  (∀ a b, R1 a b ↔ R2 a b) → rtc R1 x y ↔ rtc R2 x y.
Proof. intros H. split; apply rtc_subrel; intros a b; apply H. Qed.

(** A chain of child links from [s] down to [x] is a chain of is-a rows
    from [x] up to [s]. *)
Lemma descendant_iff rels s x :
  rtc (has_child rels) s x ↔ rtc (is_a_edge rels) x s.
Proof.
  split; intros H.
  - induction H as [|a b c Hab _ IH]; [done|]. eapply rtc_r; [exact IH|exact Hab].
  - induction H as [|a b c Hab _ IH]; [done|]. eapply rtc_r; [exact IH|exact Hab].
Qed.

(** ** [get_all_ancestors] and [get_all_descendants] *)

Lemma get_all_ancestors_reachable rt rels depth c visited :
  get_all_ancestors rt rels depth c [] = Ok visited →
  NoDup visited ∧ ∀ x, x ∈ visited ↔ rtc (is_a_edge rels) c x.
Proof.
  intros [Hnd H]%traverse_reachable. split; [done|]. intros x.
  rewrite H. apply rtc_iff, parents_link.
Qed.

Lemma get_all_descendants_reachable rt rels depth c visited :
  get_all_descendants rt rels depth c [] = Ok visited →
  NoDup visited ∧ ∀ x, x ∈ visited ↔ rtc (has_child rels) c x.
Proof.
  intros [Hnd H]%traverse_reachable. split; [done|]. intros x.
  rewrite H. apply rtc_iff, children_link.
Qed.

Lemma traverse_hierarchy_total rt rels links depth c :
  (∀ x y, link links x y → is_a_edge rels x y ∨ is_a_edge rels y x) →
  (∀ x, is_Some (links !! x) → x ∈ hierarchy_nodes rels) →
  (size (hierarchy_nodes rels) < depth)%nat →
  ∃ visited, traverse rt links depth c [] = Ok visited.
Proof.
  intros Hlink Hdom Hdepth. destruct (links !! c) as [next|] eqn:Hc.
  - apply (traverse_total rt links (hierarchy_nodes rels)).
    + intros x y _ [H|H]%Hlink; by apply is_a_edge_nodes in H as [? ?].
    + apply Hdom. by eexists.
    + simpl. by rewrite difference_empty_L.
  - destruct depth as [|depth]; [lia|]. simpl. rewrite Hc. by eexists.
Qed.

Lemma get_all_ancestors_total rt rels depth c :
  (size (hierarchy_nodes rels) < depth)%nat →
  ∃ visited, get_all_ancestors rt rels depth c [] = Ok visited.
Proof.
  apply traverse_hierarchy_total.
  - intros x y H%parents_link. by left.
  - intros x (r & Hr & Hx)%lookup_dicts_is_Some.
    apply elem_of_hierarchy_nodes. exists r. auto.
Qed.

Lemma get_all_descendants_total rt rels depth c :
  (size (hierarchy_nodes rels) < depth)%nat →
  ∃ visited, get_all_descendants rt rels depth c [] = Ok visited.
Proof.
  apply traverse_hierarchy_total.
  - intros x y H%children_link. by right.
  - intros x (r & Hr & Hx)%lookup_dicts_is_Some.
    apply elem_of_hierarchy_nodes. exists r. auto.
Qed.

(** ** The expansion *)

Lemma elem_of_related_rels seeds rels r :
  r ∈ related_rels seeds rels ↔
  r ∈ rels ∧
  (relationship_id r = "Maps to" ∨ relationship_id r = "Is a") ∧
  (concept_id_1 r ∈ seeds ∨ concept_id_2 r ∈ seeds).
Proof. unfold related_rels. rewrite list_elem_of_filter. tauto. Qed.

Lemma row_directly_linked rels r :
  r ∈ rels →
  relationship_id r = "Maps to" ∨ relationship_id r = "Is a" →
  directly_linked rels (concept_id_1 r) (concept_id_2 r) ∧
  directly_linked rels (concept_id_2 r) (concept_id_1 r).
Proof.
  intros Hr [Hid|Hid]; unfold directly_linked, is_a_edge, maps_to_edge; split.
  - right; right; left. by exists r.
  - right; right; right. by exists r.
  - left. by exists r.
  - right; left. by exists r.
Qed.

Lemma starting_one_hop seeds rels c :
  c ∈ starting_concepts seeds rels ↔ one_hop seeds rels c.
Proof.
  unfold starting_concepts, additional_concepts, one_hop.
  rewrite elem_of_union, elem_of_difference, elem_of_list_to_set, elem_of_app,
    !list_elem_of_fmap.
  split.
  - intros [Hc|[[(r & -> & Hr)|(r & -> & Hr)] Hnot]]; [by left| |];
      apply elem_of_related_rels in Hr as (Hr & Hid & [H1|H2]);
      try done; right.
    + exists (concept_id_2 r). split; [done|]. by apply row_directly_linked.
    + exists (concept_id_1 r). split; [done|]. by apply row_directly_linked.
  - intros [Hc|(s & Hs & Hlink)]; [by left|].
    destruct (decide (c ∈ seeds)) as [Hc|Hc]; [by left|]. right. split; [|done].
    destruct Hlink as [H|[H|[H|H]]]; destruct H as (r & Hr & Hid & H1 & H2);
      subst.
    + right. exists r. split; [done|]. apply elem_of_related_rels. auto.
    + left. exists r. split; [done|]. apply elem_of_related_rels. auto.
    + right. exists r. split; [done|]. apply elem_of_related_rels. auto.
    + left. exists r. split; [done|]. apply elem_of_related_rels. auto.
Qed.

Lemma hierarchy_step_spec rt rels c acc acc' :
  hierarchy_step rt rels c acc = Ok acc' →
  ∀ x, x ∈ acc' ↔
       x ∈ acc ∨ rtc (is_a_edge rels) c x ∨ rtc (has_child rels) c x.
Proof.
  unfold hierarchy_step. intros (anc & Hanc & H)%bind_Ok.
  apply bind_Ok in H as (desc & Hdesc & [= <-]).
  apply get_all_ancestors_reachable in Hanc as [_ Hanc].
  apply get_all_descendants_reachable in Hdesc as [_ Hdesc].
  intros x. rewrite !elem_of_union, !elem_of_list_to_set, Hanc, Hdesc. tauto.
Qed.

Lemma hierarchy_loop_spec rt rels l : ∀ acc acc',
  for_each (hierarchy_step rt rels) l acc = Ok acc' →
  ∀ x, x ∈ acc' ↔
       x ∈ acc ∨
       ∃ s, s ∈ l ∧ (rtc (is_a_edge rels) s x ∨ rtc (has_child rels) s x).
Proof.
  induction l as [|c l IH]; intros acc acc' Hrun x.
  - injection Hrun as <-. split; [by left|].
    intros [H|(s & Hs & _)]; [done|]. by apply elem_of_nil in Hs.
  - apply for_each_cons in Hrun as (acc1 & Hstep & Hrest).
    rewrite (IH _ _ Hrest x), (hierarchy_step_spec _ _ _ _ _ Hstep x). split.
    + intros [[H|H]|(s & Hs & H)]; [by left| |].
      * right. exists c. split; [by left|done].
      * right. exists s. split; [by right|done].
    + intros [H|(s & [->|Hs]%elem_of_cons & H)]; [by left; left|by left; right|].
      right. by exists s.
Qed.

Lemma all_hierarchy_concepts_spec rt seeds rels hierarchy :
  all_hierarchy_concepts rt seeds rels = Ok hierarchy →
  ∀ x, x ∈ hierarchy ↔
       ∃ s, one_hop seeds rels s ∧
            (rtc (is_a_edge rels) s x ∨ rtc (has_child rels) s x).
Proof.
  intros Hrun x. rewrite (hierarchy_loop_spec _ _ _ _ _ Hrun x). split.
  - intros [H|(s & Hs & H)]; [by apply not_elem_of_empty in H|].
    exists s. split; [|done]. apply starting_one_hop.
    rewrite (set_iter_perm rt) in Hs. by apply elem_of_elements in Hs.
  - intros (s & Hs & H). right. exists s. split; [|done].
    rewrite (set_iter_perm rt). by apply elem_of_elements, starting_one_hop.
Qed.

(** The expanded set is exactly what the upward and the downward
    traversals reach from the seeds and their one-hop neighbours. *)
Lemma expand_concepts_spec rt seeds rels expanded :
  expand_concepts rt seeds rels = Ok expanded →
  ∀ x, x ∈ expanded ↔
       ∃ s, one_hop seeds rels s ∧
            (rtc (is_a_edge rels) s x ∨ rtc (is_a_edge rels) x s).
Proof.
  unfold expand_concepts. intros (hierarchy & Hh & [= <-])%bind_Ok x.
  pose proof (all_hierarchy_concepts_spec _ _ _ _ Hh) as Hspec.
  assert (x ∈ seeds ∪ additional_concepts seeds rels ∪
              hierarchy ∖ starting_concepts seeds rels ↔ x ∈ hierarchy) as ->.
  { fold (starting_concepts seeds rels).
    rewrite elem_of_union, elem_of_difference. split.
    - intros [Hx|[Hx _]]; [|done]. apply Hspec. exists x.
      split; [by apply starting_one_hop|by left].
    - intros Hx. destruct (decide (x ∈ starting_concepts seeds rels)); auto. }
  rewrite Hspec. by setoid_rewrite descendant_iff.
Qed.

Lemma expand_concepts_seeds rt seeds rels expanded s :
  expand_concepts rt seeds rels = Ok expanded → s ∈ seeds → s ∈ expanded.
Proof.
  intros Hrun Hs. apply (expand_concepts_spec _ _ _ _ Hrun).
  exists s. split; [by left|by left].
Qed.

Lemma hierarchy_loop_total rt rels l acc :
  (size (hierarchy_nodes rels) < recursion_limit rt)%nat →
  ∃ acc', for_each (hierarchy_step rt rels) l acc = Ok acc'.
Proof.
  intros Hdepth. revert acc. induction l as [|c l IH]; intros acc; [by eexists|].
  destruct (get_all_ancestors_total rt rels _ c Hdepth) as [anc Hanc].
  destruct (get_all_descendants_total rt rels _ c Hdepth) as [desc Hdesc].
  destruct (IH (acc ∪ list_to_set anc ∪ list_to_set desc)) as [acc' Hacc'].
  exists acc'. apply for_each_cons. eexists. split; [|exact Hacc'].
  unfold hierarchy_step. rewrite Hanc. simpl. by rewrite Hdesc.
Qed.

(** The expansion raises nothing when the recursion limit exceeds the number
    of concepts of the hierarchy. *)
Lemma expand_concepts_total rt seeds rels :
  (size (hierarchy_nodes rels) < recursion_limit rt)%nat →
  ∃ expanded, expand_concepts rt seeds rels = Ok expanded.
Proof.
  intros Hdepth. unfold expand_concepts, all_hierarchy_concepts.
  destruct (hierarchy_loop_total rt rels
              (set_iter rt (starting_concepts seeds rels)) ∅ Hdepth) as [h ->].
  by eexists.
Qed.

(** ** [drop_duplicates] *)

Section drop_duplicates.
Context {A K : Type} `{EqDecision K} (key : A → K).

Lemma elem_of_drop_duplicates_from seen l x :
  x ∈ drop_duplicates_from key seen l ↔
  (key x ∉ seen) ∧ head (filter (λ y, key y = key x) l) = Some x.
Proof.
  revert seen. induction l as [|y l IH]; intros seen; simpl.
  - split; [by intros ?%elem_of_nil|by intros [_ ?]].
  - rewrite filter_cons.
    destruct (decide (key y ∈ seen)) as [Hseen|Hseen];
      destruct (decide (key y = key x)) as [Heq|Hne]; simpl.
    + rewrite IH. split; [intros [Hx _]|intros [Hx _]]; by rewrite <- Heq in Hx.
    + apply IH.
    + rewrite elem_of_cons, IH. split.
      * intros [->|[Hx _]]; [done|]. destruct Hx. rewrite <- Heq. by left.
      * intros [_ [= ->]]. by left.
    + rewrite elem_of_cons, IH, not_elem_of_cons. split.
      * intros [->|[[_ Hx] Hhd]]; done.
      * intros [Hx Hhd]. right. auto.
Qed.

(** A row survives exactly when it is the first row of its key. *)
Lemma elem_of_drop_duplicates l x :
  x ∈ drop_duplicates key l ↔ head (filter (λ y, key y = key x) l) = Some x.
Proof.
  unfold drop_duplicates. rewrite elem_of_drop_duplicates_from.
  split; [by intros [_ ?]|]. split; [apply not_elem_of_nil|done].
Qed.

Lemma drop_duplicates_subseteq l x : x ∈ drop_duplicates key l → x ∈ l.
Proof.
  rewrite elem_of_drop_duplicates. intros H%head_Some_elem_of.
  by apply list_elem_of_filter in H as [_ ?].
Qed.

Lemma drop_duplicates_complete l x :
  x ∈ l → ∃ x', x' ∈ drop_duplicates key l ∧ key x' = key x.
Proof.
  intros Hx.
  destruct (head (filter (λ y, key y = key x) l)) as [x'|] eqn:Hhd.
  - pose proof (head_Some_elem_of _ _ Hhd) as [Hk _]%list_elem_of_filter.
    exists x'. split; [|done]. apply elem_of_drop_duplicates. by rewrite Hk.
  - apply head_None in Hhd.
    assert (x ∈ filter (λ y, key y = key x) l) as Hin
      by (by apply list_elem_of_filter).
    rewrite Hhd in Hin. by apply elem_of_nil in Hin.
Qed.

Lemma drop_duplicates_from_NoDup seen l :
  NoDup (key <$> drop_duplicates_from key seen l).
Proof.
  revert seen. induction l as [|y l IH]; intros seen; simpl; [constructor|].
  destruct (decide (key y ∈ seen)); [apply IH|].
  rewrite fmap_cons. constructor; [|apply IH].
  intros (x & Hk & [Hx _]%elem_of_drop_duplicates_from)%list_elem_of_fmap.
  apply Hx. rewrite Hk. by left.
Qed.

Lemma drop_duplicates_NoDup l : NoDup (key <$> drop_duplicates key l).
Proof. apply drop_duplicates_from_NoDup. Qed.

Lemma drop_duplicates_from_seen seen l :
  (∀ x, x ∈ l → key x ∈ seen) → drop_duplicates_from key seen l = [].
Proof.
  induction l as [|y l IH]; intros Hall; simpl; [done|].
  rewrite decide_True by (apply Hall; by left).
  apply IH. intros x Hx. apply Hall. by right.
Qed.

Lemma drop_duplicates_from_ext seen seen' l :
  (∀ k, k ∈ seen ↔ k ∈ seen') →
  drop_duplicates_from key seen l = drop_duplicates_from key seen' l.
Proof.
  revert seen seen'. induction l as [|y l IH]; intros seen seen' Hext; simpl;
    [done|].
  destruct (decide (key y ∈ seen)) as [Hin|Hnin].
  - rewrite decide_True by (by apply Hext). by apply IH.
  - rewrite decide_False by (by rewrite <- Hext). f_equal. apply IH.
    intros k. rewrite !elem_of_cons, Hext. tauto.
Qed.

Lemma drop_duplicates_from_idemp seen l :
  drop_duplicates_from key seen (drop_duplicates_from key seen l) =
  drop_duplicates_from key seen l.
Proof.
  revert seen. induction l as [|y l IH]; intros seen; simpl; [done|].
  destruct (decide (key y ∈ seen)) as [Hin|Hnin]; [apply IH|].
  simpl. rewrite decide_False by done. f_equal. apply IH.
Qed.

Lemma drop_duplicates_from_app seen l1 l2 :
  (∀ x, x ∈ l2 → key x ∈ seen ∨ key x ∈ key <$> l1) →
  drop_duplicates_from key seen (l1 ++ l2) = drop_duplicates_from key seen l1.
Proof.
  revert seen. induction l1 as [|y l1 IH]; intros seen Hl2; simpl.
  - apply drop_duplicates_from_seen. intros x Hx.
    destruct (Hl2 x Hx) as [?|?%elem_of_nil]; done.
  - destruct (decide (key y ∈ seen)) as [Hin|Hnin].
    + apply IH. intros x Hx.
      destruct (Hl2 x Hx) as [?|[->|?]%elem_of_cons]; auto.
    + f_equal. apply IH. intros x Hx. rewrite elem_of_cons.
      destruct (Hl2 x Hx) as [?|[->|?]%elem_of_cons]; auto.
Qed.

Lemma drop_duplicates_idemp l :
  drop_duplicates key (drop_duplicates key l) = drop_duplicates key l.
Proof. apply drop_duplicates_from_idemp. Qed.

Lemma drop_duplicates_twice l :
  drop_duplicates key (l ++ l) = drop_duplicates key l.
Proof.
  apply drop_duplicates_from_app. intros x Hx. right. by apply list_elem_of_fmap_2.
Qed.

Lemma drop_duplicates_nil_inv l : drop_duplicates key l = [] → l = [].
Proof. destruct l as [|x l]; [done|]. unfold drop_duplicates. by simpl. Qed.
End drop_duplicates.

(** ** The language map *)

Lemma dict_set_keys k v d :
  ∀ k', k' ∈ (dict_set k v d).*1 ↔ k' = k ∨ k' ∈ d.*1.
Proof.
  induction d as [|[k0 v0] d IH]; intros k'; simpl.
  - rewrite list_elem_of_singleton. split; [by left|].
    intros [?|?%elem_of_nil]; done.
  - destruct (decide (k0 = k)) as [->|Hne]; simpl.
    + rewrite !elem_of_cons. tauto.
    + rewrite !elem_of_cons, IH. tauto.
Qed.

Lemma dict_set_NoDup k v d : NoDup d.*1 → NoDup (dict_set k v d).*1.
Proof.
  induction d as [|[k0 v0] d IH]; simpl; intros Hnd.
  - constructor; [apply not_elem_of_nil|constructor].
  - apply NoDup_cons in Hnd as [Hk0 Hnd].
    destruct (decide (k0 = k)) as [->|Hne]; simpl.
    + by constructor.
    + constructor; [|by apply IH]. rewrite dict_set_keys. intros [?|?]; done.
Qed.

Lemma load_languages_NoDup rows : NoDup (load_languages rows).*1.
Proof.
  unfold load_languages. induction rows as [|row rows IH] using rev_ind.
  - constructor.
  - rewrite foldl_app. simpl. by apply dict_set_NoDup.
Qed.

Lemma dict_get_elem_of k v d : dict_get k d = Some v → (k, v) ∈ d.
Proof.
  induction d as [|[k0 v0] d IH]; simpl; [done|].
  destruct (decide (k0 = k)) as [->|Hne].
  - intros [= ->]. by left.
  - intros H. right. by apply IH.
Qed.

Lemma dict_get_NoDup k v d : NoDup d.*1 → (k, v) ∈ d → dict_get k d = Some v.
Proof.
  induction d as [|[k0 v0] d IH]; simpl; intros Hnd Hin.
  - by apply elem_of_nil in Hin.
  - apply NoDup_cons in Hnd as [Hk0 Hnd].
    apply elem_of_cons in Hin as [[= -> ->]|Hin].
    + by rewrite decide_True.
    + destruct (decide (k0 = k)) as [->|Hne]; [|by apply IH].
      destruct Hk0. apply list_elem_of_fmap. by exists (k, v).
Qed.

Lemma dict_get_is_Some k d : k ∈ d.*1 → is_Some (dict_get k d).
Proof.
  induction d as [|[k0 v0] d IH]; simpl.
  - by intros ?%elem_of_nil.
  - intros [->|Hin]%elem_of_cons.
    + rewrite decide_True by done. by eexists.
    + destruct (decide (k0 = k)); [by eexists|by apply IH].
Qed.

Lemma first_Ok {A : Type} (xs : list A) x : first xs = Ok x → x ∈ xs.
Proof. destruct xs as [|y xs]; [done|]. intros [= ->]. by left. Qed.

Lemma chinese_lang_id_Ok inp lang :
  chinese_lang_id (language_map inp) = Ok lang →
  dict_get lang (language_map inp) = Some "Chinese".
Proof.
  intros ([k v] & -> & [Hv Hin]%list_elem_of_filter)%first_Ok%list_elem_of_fmap.
  simpl in *. subst v.
  apply dict_get_NoDup; [apply load_languages_NoDup|done].
Qed.

Lemma target_synonym_language inp row :
  row ∈ target_synonyms inp →
  is_Some (dict_get (syn_language_concept_id row) (language_map inp)).
Proof.
  intros [Hlang _]%list_elem_of_filter. apply dict_get_is_Some.
  by apply elem_of_list_to_set in Hlang.
Qed.

(** ** The concept table *)

Lemma concept_row_fillna inp ids c :
  c ∈ selected_concepts inp ids ↔
  concept_id c ∈ ids ∧ fillna <$> concept_row inp (concept_id c) = Some c.
Proof.
  unfold selected_concepts, concept_row. rewrite elem_of_drop_duplicates.
  generalize (concepts_df inp). intros df.
  induction df as [|r df IH]; simpl.
  - split; [done|by intros [_ ?]].
  - rewrite !filter_cons. simpl.
    destruct (decide (concept_id r ∈ ids)) as [Hin|Hnin];
      destruct (decide (concept_id r = concept_id c)) as [Heq|Hne]; simpl.
    + rewrite filter_cons. simpl. rewrite decide_True by done. simpl.
      rewrite <- Heq. split; [by intros [= <-]|by intros [_ [= <-]]].
    + rewrite filter_cons. simpl. by rewrite decide_False by done.
    + rewrite IH, <- Heq. split; [by intros [? _]|by intros [? _]].
    + done.
Qed.

Lemma selected_concepts_unique inp ids c c' :
  c ∈ selected_concepts inp ids → c' ∈ selected_concepts inp ids →
  concept_id c = concept_id c' → c = c'.
Proof.
  intros [_ Hc]%concept_row_fillna [_ Hc']%concept_row_fillna Heq.
  rewrite Heq in Hc. congruence.
Qed.

Lemma concept_row_Some inp cid r :
  concept_row inp cid = Some r → r ∈ concepts_df inp ∧ concept_id r = cid.
Proof.
  intros [? ?]%head_Some_elem_of%list_elem_of_filter. done.
Qed.

Lemma elem_of_kept_concepts inp ids c :
  c ∈ kept_concepts inp ids ↔
  concept_id c ∈ ids ∧ fillna <$> concept_row inp (concept_id c) = Some c ∧
  domain_id c ∉ EXCLUDED_DOMAINS.
Proof.
  unfold kept_concepts. rewrite list_elem_of_filter, concept_row_fillna. tauto.
Qed.

Lemma elem_of_excluded_concepts inp ids c :
  c ∈ excluded_concepts inp ids ↔
  concept_id c ∈ ids ∧ fillna <$> concept_row inp (concept_id c) = Some c ∧
  domain_id c ∈ EXCLUDED_DOMAINS.
Proof.
  unfold excluded_concepts. rewrite list_elem_of_filter, concept_row_fillna. tauto.
Qed.

(** The identifiers that survive the domain filter. *)
Lemma elem_of_kept_ids inp ids cid :
  cid ∈ concept_id <$> kept_concepts inp ids ↔
  cid ∈ ids ∧ ∃ r, concept_row inp cid = Some r ∧ domain_id r ∉ EXCLUDED_DOMAINS.
Proof.
  rewrite list_elem_of_fmap. split.
  - intros (c & -> & (Hin & Hrow & Hdom)%elem_of_kept_concepts).
    split; [done|]. destruct (concept_row inp (concept_id c)) as [r|]; [|done].
    injection Hrow as <-. by exists r.
  - intros (Hin & r & Hrow & Hdom). exists (fillna r).
    pose proof (concept_row_Some _ _ _ Hrow) as [_ Hid].
    split; [done|]. apply elem_of_kept_concepts. simpl.
    rewrite Hid, Hrow. done.
Qed.

(** The identifiers that the domain filter removes. *)
Lemma elem_of_excluded_ids inp ids cid :
  cid ∈ concept_id <$> excluded_concepts inp ids ↔
  cid ∈ ids ∧ ∃ r, concept_row inp cid = Some r ∧ domain_id r ∈ EXCLUDED_DOMAINS.
Proof.
  rewrite list_elem_of_fmap. split.
  - intros (c & -> & (Hin & Hrow & Hdom)%elem_of_excluded_concepts).
    split; [done|]. destruct (concept_row inp (concept_id c)) as [r|]; [|done].
    injection Hrow as <-. by exists r.
  - intros (Hin & r & Hrow & Hdom). exists (fillna r).
    pose proof (concept_row_Some _ _ _ Hrow) as [_ Hid].
    split; [done|]. apply elem_of_excluded_concepts. simpl.
    rewrite Hid, Hrow. done.
Qed.

Lemma concept_vocab_kept inp ids c :
  c ∈ kept_concepts inp ids →
  concept_vocab (kept_concepts inp ids) (concept_id c) = Some (vocabulary_id c).
Proof.
  intros Hc. unfold concept_vocab.
  destruct (head (filter (λ c', concept_id c' = concept_id c)
                         (kept_concepts inp ids))) as [c'|] eqn:Hhd.
  - pose proof (head_Some_elem_of _ _ Hhd) as [Hid Hc']%list_elem_of_filter.
    simpl. do 2 f_equal.
    apply (selected_concepts_unique inp ids); [| |done].
    + by apply list_elem_of_filter in Hc' as [_ ?].
    + by apply list_elem_of_filter in Hc as [_ ?].
  - apply head_None in Hhd.
    assert (c ∈ filter (λ c', concept_id c' = concept_id c) (kept_concepts inp ids))
      as Hin by (by apply list_elem_of_filter).
    rewrite Hhd in Hin. by apply elem_of_nil in Hin.
Qed.

Lemma concept_vocab_None final cid :
  cid ∉ concept_id <$> final → concept_vocab final cid = None.
Proof.
  intros Hnot. unfold concept_vocab.
  destruct (head (filter (λ c, concept_id c = cid) final)) as [c|] eqn:Hhd; [|done].
  apply head_Some_elem_of, list_elem_of_filter in Hhd as [<- Hc].
  destruct Hnot. by apply list_elem_of_fmap_2.
Qed.

(** ** Step 8 *)

Lemma excel_name_entry cm pcs lang acc c :
  excel_name cm pcs lang acc c = acc ++ option_list (excel_entry cm pcs lang c).
Proof.
  unfold excel_name, excel_entry, spreadsheet_name.
  destruct (decide (vocabulary_id c = "ICD10CM")) as [Hcm|Hcm].
  - destruct (cm !! concept_code c) as [v|]; simpl; [done|].
    rewrite decide_False by (rewrite Hcm; discriminate). simpl.
    by rewrite app_nil_r.
  - destruct (decide (vocabulary_id c = "ICD10PCS")) as [Hpcs|Hpcs].
    + destruct (pcs !! concept_code c) as [v|]; simpl; [done|].
      by rewrite app_nil_r.
    + simpl. by rewrite app_nil_r.
Qed.

Lemma excel_names_entries cm pcs lang final :
  excel_names cm pcs lang final = omap (excel_entry cm pcs lang) final.
Proof.
  unfold excel_names. rewrite <- (app_nil_l (omap _ final)).
  generalize (@nil Name). induction final as [|c final IH]; intros acc; simpl.
  - by rewrite app_nil_r.
  - rewrite IH, excel_name_entry, <- app_assoc. f_equal.
    by destruct (excel_entry cm pcs lang c).
Qed.

Lemma synonym_name_entry lm ids final row acc acc' :
  synonym_name lm ids final row acc = Ok acc' →
  acc' = acc ++ option_list (synonym_entry lm ids final row).
Proof.
  unfold synonym_name, synonym_entry, is_icd10.
  destruct (decide (syn_concept_id row ∉ ids)) as [Hnot|Hin].
  - intros [= <-]. rewrite decide_False by done. by rewrite app_nil_r.
  - rewrite decide_True by (by apply dec_stable).
    destruct (dict_get (syn_language_concept_id row) lm) as [lang_name|]; [|done].
    simpl. case_decide; intros [= <-]; [by rewrite app_nil_r|done].
Qed.

Lemma synonym_names_entries lm ids final rows : ∀ acc out,
  for_each (synonym_name lm ids final) rows acc = Ok out →
  out = acc ++ omap (synonym_entry lm ids final) rows.
Proof.
  induction rows as [|row rows IH]; intros acc out Hrun.
  - injection Hrun as <-. simpl. by rewrite app_nil_r.
  - apply for_each_cons in Hrun as (acc1 & H1 & Hrest).
    apply synonym_name_entry in H1 as ->. apply IH in Hrest as ->.
    rewrite <- app_assoc. f_equal. simpl.
    by destruct (synonym_entry lm ids final row).
Qed.

Lemma synonym_names_total lm ids final rows :
  (∀ row, row ∈ rows → is_Some (dict_get (syn_language_concept_id row) lm)) →
  ∀ acc, ∃ out, for_each (synonym_name lm ids final) rows acc = Ok out.
Proof.
  induction rows as [|row rows IH]; intros Hlang acc; [by eexists|].
  destruct (Hlang row) as [lang_name Hrow]; [by left|].
  assert (∃ acc1, synonym_name lm ids final row acc = Ok acc1) as [acc1 H1].
  { unfold synonym_name. case_decide; [by eexists|]. rewrite Hrow.
    case_decide; by eexists. }
  destruct (IH (λ r Hr, Hlang r (list_elem_of_further _ _ _ Hr)) acc1)
    as [out Hout].
  exists out. apply for_each_cons. eauto.
Qed.

(** ** The run as a whole *)

(** What a run that reaches the graph sink has computed. *)
Lemma build_graph_Ok rt inp g :
  build_graph rt inp = Ok g →
  ∃ cm pcs lang,
    icd10cm_chinese rt inp = Ok cm ∧
    icd10pcs_chinese rt inp = Ok pcs ∧
    expand_concepts rt (concepts_with_translations inp) (relationships_df inp)
      = Ok (expanded_concept_ids g) ∧
    final_concepts g = kept_concepts inp (expanded_concept_ids g) ∧
    excluded_concept_ids g =
      list_to_set (concept_id <$> excluded_concepts inp (expanded_concept_ids g)) ∧
    all_concept_ids g = expanded_concept_ids g ∖ excluded_concept_ids g ∧
    chinese_lang_id (language_map inp) = Ok lang ∧
    names_df g =
      drop_duplicates name_key
        (omap (excel_entry cm pcs lang) (final_concepts g) ++
         omap (synonym_entry (language_map inp) (all_concept_ids g)
                 (final_concepts g)) (target_synonyms inp)) ∧
    names_df g ≠ [] ∧
    is_a_rels g = final_is_a (relationships_df inp) (final_concept_ids g) ∧
    maps_to_rels g = final_maps_to (relationships_df inp) (final_concept_ids g).
Proof.
  unfold build_graph. intros (cm & Hcm & H)%bind_Ok.
  apply bind_Ok in H as (pcs & Hpcs & H).
  apply bind_Ok in H as (expanded & Hexp & H).
  apply bind_Ok in H as (lang & Hlang & H).
  apply bind_Ok in H as (names_list & Hnames & H).
  apply bind_Ok in H as (names & Hframe & [= <-]).
  apply synonym_names_entries in Hnames. rewrite excel_names_entries in Hnames.
  exists cm, pcs, lang. simpl. split_and!; try done.
  - destruct names_list; [done|]. injection Hframe as <-. by rewrite Hnames.
  - destruct names_list as [|n l]; [done|]. injection Hframe as <-.
    unfold drop_duplicates. by simpl.
Qed.

(** ** The names of a run *)

Lemma synonym_entry_Some lm ids final row n :
  synonym_entry lm ids final row = Some n ↔
  syn_concept_id row ∈ ids ∧
  ∃ lang_name, dict_get (syn_language_concept_id row) lm = Some lang_name ∧
    ¬ (lang_name = "Chinese" ∧ is_icd10 (concept_vocab final (syn_concept_id row))) ∧
    n = synonym_to_name row lang_name.
Proof.
  unfold synonym_entry. case_decide as Hin; [|split; [done|by intros [? _]]].
  destruct (dict_get (syn_language_concept_id row) lm) as [lang_name|]; simpl.
  - case_decide as Hskip; split.
    + done.
    + intros (_ & l & [= <-] & Hnot & _). done.
    + intros [= <-]. split; [done|]. by exists lang_name.
    + intros (_ & l & [= <-] & _ & ->). done.
  - split; [done|]. by intros (_ & l & ? & _).
Qed.

Lemma excel_entry_Some cm pcs lang c n :
  excel_entry cm pcs lang c = Some n ↔
  ∃ v, spreadsheet_name cm pcs c = Some v ∧
       n = {| name_concept_id := concept_id c; value := v;
              language_concept_id := lang; language_name := "Chinese" |}.
Proof.
  unfold excel_entry. destruct (spreadsheet_name cm pcs c) as [v|]; simpl.
  - split; [intros [= <-]; by exists v|by intros (v' & [= <-] & ->)].
  - split; [done|by intros (v' & ? & _)].
Qed.

Lemma spreadsheet_name_icd10 cm pcs c v :
  spreadsheet_name cm pcs c = Some v → is_icd10 (Some (vocabulary_id c)).
Proof.
  unfold spreadsheet_name, is_icd10. repeat case_decide; try done; intros _.
  - left. by f_equal.
  - right. by f_equal.
Qed.

(** The names handed to the graph sink are the spreadsheet entries of the
    final concepts and the entries of the target synonym rows. *)
Lemma elem_of_names_df rt inp g :
  build_graph rt inp = Ok g →
  ∃ cm pcs lang,
    icd10cm_chinese rt inp = Ok cm ∧
    icd10pcs_chinese rt inp = Ok pcs ∧
    chinese_lang_id (language_map inp) = Ok lang ∧
    ∀ n, n ∈ names_df g ↔
      (∃ c, c ∈ final_concepts g ∧ excel_entry cm pcs lang c = Some n) ∨
      (∃ row, row ∈ target_synonyms inp ∧
              synonym_entry (language_map inp) (all_concept_ids g)
                (final_concepts g) row = Some n).
Proof.
  intros Hrun. destruct (build_graph_Ok _ _ _ Hrun)
    as (cm & pcs & lang & Hcm & Hpcs & _ & _ & _ & _ & Hlang & Hnames & _).
  exists cm, pcs, lang. split_and!; try done. intros n.
  set (entries := omap (excel_entry cm pcs lang) (final_concepts g) ++
                  omap (synonym_entry (language_map inp) (all_concept_ids g)
                          (final_concepts g)) (target_synonyms inp)) in *.
  assert (∀ m, m ∈ entries →
            dict_get (language_concept_id m) (language_map inp)
            = Some (language_name m)) as Hlm.
  { intros m [Hm|Hm]%elem_of_app.
    - apply list_elem_of_omap in Hm as (c & _ & (v & _ & ->)%excel_entry_Some).
      simpl. by apply chinese_lang_id_Ok.
    - apply list_elem_of_omap in Hm
        as (row & _ & (_ & l & Hl & _ & ->)%synonym_entry_Some).
      done. }
  assert (n ∈ names_df g ↔ n ∈ entries) as ->.
  { rewrite Hnames. split; [apply drop_duplicates_subseteq|].
    intros Hn. destruct (drop_duplicates_complete name_key _ _ Hn)
      as (n' & Hn' & Hkey).
    replace n with n'; [done|].
    pose proof (Hlm n Hn) as H1.
    pose proof (Hlm n' (drop_duplicates_subseteq _ _ _ Hn')) as H2.
    destruct n, n'. injection Hkey as -> -> ->. simpl in *.
    rewrite H1 in H2. by injection H2 as ->. }
  unfold entries. rewrite elem_of_app, !list_elem_of_omap. done.
Qed.

Lemma final_concept_ids_spec rt inp g cid :
  build_graph rt inp = Ok g →
  cid ∈ final_concept_ids g ↔
  cid ∈ expanded_concept_ids g ∧
  ∃ r, concept_row inp cid = Some r ∧ domain_id r ∉ EXCLUDED_DOMAINS.
Proof.
  intros Hrun. destruct (build_graph_Ok _ _ _ Hrun)
    as (_ & _ & _ & _ & _ & _ & Hfinal & _).
  unfold final_concept_ids. rewrite elem_of_list_to_set, Hfinal.
  apply elem_of_kept_ids.
Qed.

Lemma excluded_concept_ids_spec rt inp g cid :
  build_graph rt inp = Ok g →
  cid ∈ excluded_concept_ids g ↔
  cid ∈ expanded_concept_ids g ∧
  ∃ r, concept_row inp cid = Some r ∧ domain_id r ∈ EXCLUDED_DOMAINS.
Proof.
  intros Hrun. destruct (build_graph_Ok _ _ _ Hrun)
    as (_ & _ & _ & _ & _ & _ & _ & Hexcl & _).
  rewrite Hexcl, elem_of_list_to_set. apply elem_of_excluded_ids.
Qed.

Lemma all_concept_ids_spec rt inp g cid :
  build_graph rt inp = Ok g →
  cid ∈ all_concept_ids g ↔
  cid ∈ expanded_concept_ids g ∧ cid ∉ excluded_concept_ids g.
Proof.
  intros Hrun. destruct (build_graph_Ok _ _ _ Hrun)
    as (_ & _ & _ & _ & _ & _ & _ & _ & Hall & _).
  rewrite Hall. apply elem_of_difference.
Qed.

Lemma final_subseteq_all rt inp g cid :
  build_graph rt inp = Ok g →
  cid ∈ final_concept_ids g → cid ∈ all_concept_ids g.
Proof.
  intros Hrun Hfinal. rewrite (all_concept_ids_spec _ _ _ _ Hrun).
  apply (final_concept_ids_spec _ _ _ _ Hrun) in Hfinal
    as (Hexp & r & Hrow & Hdom).
  split; [done|].
  intros (_ & r' & Hrow' & Hdom')%(excluded_concept_ids_spec _ _ _ _ Hrun).
  congruence.
Qed.

Lemma names_in_all_concept_ids rt inp g n :
  build_graph rt inp = Ok g →
  n ∈ names_df g → name_concept_id n ∈ all_concept_ids g.
Proof.
  intros Hrun Hn.
  destruct (elem_of_names_df _ _ _ Hrun) as (cm & pcs & lang & _ & _ & _ & Hnames).
  destruct (proj1 (Hnames n) Hn) as [(c & Hc & He)|(row & _ & He)].
  - apply excel_entry_Some in He as (v & _ & ->).
    simpl. apply (final_subseteq_all _ _ _ _ Hrun).
    unfold final_concept_ids. apply elem_of_list_to_set.
    by apply list_elem_of_fmap_2.
  - by apply synonym_entry_Some in He as (Hin & l & _ & _ & ->).
Qed.

Lemma elem_of_final_is_a rels ids e :
  e ∈ final_is_a rels ids ↔
  is_a_edge rels e.1 e.2 ∧ e.1 ∈ ids ∧ e.2 ∈ ids.
Proof.
  unfold final_is_a, is_a_edge. rewrite list_elem_of_fmap. split.
  - intros (r & -> & Hr). apply list_elem_of_filter in Hr as [(Hid & H1 & H2) Hr].
    simpl. split; [by exists r|done].
  - intros ((r & Hr & Hid & H1 & H2) & Hin1 & Hin2). exists r. split.
    + destruct e as [e1 e2]. simpl in *. by rewrite H1, H2.
    + apply list_elem_of_filter. by rewrite H1, H2.
Qed.

Lemma elem_of_final_maps_to rels ids e :
  e ∈ final_maps_to rels ids ↔
  maps_to_edge rels e.1 e.2 ∧ e.1 ∈ ids ∧ e.2 ∈ ids ∧ e.1 ≠ e.2.
Proof.
  unfold final_maps_to, maps_to_edge. rewrite list_elem_of_fmap. split.
  - intros (r & -> & Hr).
    apply list_elem_of_filter in Hr as [(Hid & H1 & H2 & Hne) Hr].
    simpl. split; [by exists r|done].
  - intros ((r & Hr & Hid & H1 & H2) & Hin1 & Hin2 & Hne). exists r. split.
    + destruct e as [e1 e2]. simpl in *. by rewrite H1, H2.
    + apply list_elem_of_filter. by rewrite H1, H2.
Qed.

(** ** The sample runs *)

Lemma scenario_run : build_graph (py 10) scenario = Ok scenario_graph.
Proof. vm_compute. reflexivity. Qed.

Lemma icd_sample_run : build_graph (py 10) icd_sample = Ok icd_sample_graph.
Proof. vm_compute. reflexivity. Qed.

Lemma second_parent_run :
  build_graph (py 10) second_parent = Ok second_parent_graph.
Proof. vm_compute. reflexivity. Qed.

Lemma icd_sample_dicts :
  icd10cm_chinese (py 10) icd_sample = Ok icd_sample_cm ∧
  icd10pcs_chinese (py 10) icd_sample = Ok icd_sample_pcs.
Proof. split; vm_compute; reflexivity. Qed.

(** The traversals of the cycle 1 → 2 → 3 → 1 from concept 1. *)
Lemma cycle_traversals :
  get_all_ancestors (py 6) cycle 6 1 [] = Ok [4; 3; 2; 1] ∧
  get_all_descendants (py 6) cycle 6 1 [] = Ok [2; 3; 5; 1] ∧
  get_all_ancestors (py 6) cycle 3 1 [] = Raise RecursionError.
Proof. split_and!; vm_compute; reflexivity. Qed.

(** * The claims *)






(** C1 (closure completeness), as amended.  A final concept that is a seed,
    a one-hop concept or an ancestor of one has every is-a parent in the
    expanded set; the parent is a final concept unless the domain filter
    removed it or the concept file has no row for it. *)
Theorem closure_of_ancestors rt inp g c p :
  build_graph rt inp = Ok g →
  c ∈ final_concept_ids g →
  reached_upward inp c →
  is_a_edge (relationships_df inp) c p →
  p ∈ expanded_concept_ids g ∧
  (is_Some (concept_row inp p) →
   p ∈ final_concept_ids g ∨ p ∈ excluded_concept_ids g).
Proof.
  intros Hrun _ (s & Hs & Hsc) Hcp.
  destruct (build_graph_Ok _ _ _ Hrun) as (_ & _ & _ & _ & _ & Hexp & _).
  assert (p ∈ expanded_concept_ids g) as Hp.
  { apply (expand_concepts_spec _ _ _ _ Hexp). exists s. split; [done|].
    left. by eapply rtc_r. }
  split; [done|]. intros [r Hrow].
  rewrite (final_concept_ids_spec _ _ _ _ Hrun),
    (excluded_concept_ids_spec _ _ _ _ Hrun).
  destruct (decide (domain_id r ∈ EXCLUDED_DOMAINS)); [right|left];
    (split; [done|by exists r]).
Qed.

Lemma closure_of_ancestors_witness :
  build_graph (py 10) scenario = Ok scenario_graph ∧
  2 ∈ expanded_concept_ids scenario_graph ∧
  (is_Some (concept_row scenario 2) →
   2 ∈ final_concept_ids scenario_graph ∨ 2 ∈ excluded_concept_ids scenario_graph).
Proof.
  split; [vm_compute; reflexivity|].
  apply (closure_of_ancestors (py 10) scenario scenario_graph 1 2).
  - vm_compute. reflexivity.
  - vm_compute. reflexivity.
  - exists 1. split; [left; vm_compute; reflexivity|apply rtc_refl].
  - exists (is_a 1 2). split; [left|]; repeat split; reflexivity.
Defined.

(** C1, the statement of the specification fails: concept 3 descends from
    the seed 1 and is imported, its other parent 4 has a row of an allowed
    domain and is not. *)
Lemma closure_completeness_fails :
  build_graph (py 10) second_parent = Ok second_parent_graph ∧
  ¬ closure_complete second_parent second_parent_graph.
Proof.
  split; [vm_compute; reflexivity|]. intros Hclosed.
  destruct (Hclosed 3 4) as [H|H].
  - vm_compute. reflexivity.
  - exists (is_a 3 4). split; [do 2 right; left|]; repeat split; reflexivity.
  - vm_compute in H. discriminate.
  - vm_compute in H. discriminate.
Qed.

(** The other way a parent stays outside: concept 1 is a seed of
    [icd_sample], its parent 8 is in the expanded set, and the concept file
    has no row for 8. *)
Lemma parent_without_row :
  build_graph (py 10) icd_sample = Ok icd_sample_graph ∧
  is_a_edge (relationships_df icd_sample) 1 8 ∧
  1 ∈ final_concept_ids icd_sample_graph ∧
  8 ∈ expanded_concept_ids icd_sample_graph ∧
  concept_row icd_sample 8 = None ∧
  (8 ∉ final_concept_ids icd_sample_graph) ∧
  (8 ∉ excluded_concept_ids icd_sample_graph).
Proof.
  split_and!; try (vm_compute; reflexivity).
  - exists (is_a 1 8). split; [do 3 right; left|]; repeat split; reflexivity.
  - intros H. vm_compute in H. discriminate.
  - intros H. vm_compute in H. discriminate.
Qed.

(** C4 (precedence rule), as amended.  A final concept to which the
    spreadsheet gives the Chinese name X has X as a Chinese name in the
    merged list and no Chinese name other than X; and the synonym row of a
    final concept is taken as it is whenever its language is not Chinese or
    the vocabulary of the concept is neither ICD10CM nor ICD10PCS. *)
Theorem precedence_rule rt inp g cm pcs :
  build_graph rt inp = Ok g →
  icd10cm_chinese rt inp = Ok cm →
  icd10pcs_chinese rt inp = Ok pcs →
  (∀ c X, c ∈ final_concepts g → spreadsheet_name cm pcs c = Some X →
     (∃ n, n ∈ names_df g ∧ chinese_name_of c X n) ∧
     (∀ n Y, n ∈ names_df g → chinese_name_of c Y n → Y = X)) ∧
  (∀ c row lang_name, c ∈ final_concepts g → row ∈ target_synonyms inp →
     syn_concept_id row = concept_id c →
     dict_get (syn_language_concept_id row) (language_map inp) = Some lang_name →
     ¬ (lang_name = "Chinese" ∧ is_icd10 (Some (vocabulary_id c))) →
     synonym_to_name row lang_name ∈ names_df g).
Proof.
  intros Hrun Hcm Hpcs.
  destruct (elem_of_names_df _ _ _ Hrun)
    as (cm' & pcs' & lang & Hcm' & Hpcs' & Hlang & Hnames).
  rewrite Hcm in Hcm'. injection Hcm' as <-.
  rewrite Hpcs in Hpcs'. injection Hpcs' as <-.
  destruct (build_graph_Ok _ _ _ Hrun) as (_ & _ & _ & _ & _ & _ & Hfinal & _).
  assert (∀ c, c ∈ final_concepts g →
            concept_vocab (final_concepts g) (concept_id c)
            = Some (vocabulary_id c)) as Hvocab.
  { intros c Hc. rewrite Hfinal in Hc |- *. by apply concept_vocab_kept. }
  split.
  - intros c X Hc HX. split.
    + eexists. split.
      * apply Hnames. left. exists c. split; [done|].
        apply excel_entry_Some. by exists X.
      * done.
    + intros n Y Hn (Hid & Hchinese & HY).
      destruct (proj1 (Hnames n) Hn) as [(c' & Hc' & He)|(row & Hrow & He)].
      * apply excel_entry_Some in He as (v & Hv & ->). simpl in *.
        assert (c' = c) as ->.
        { rewrite Hfinal in Hc, Hc'.
          apply list_elem_of_filter in Hc as [_ Hc].
          apply list_elem_of_filter in Hc' as [_ Hc'].
          by apply (selected_concepts_unique inp (expanded_concept_ids g)). }
        congruence.
      * apply synonym_entry_Some in He as (_ & l & _ & Hnot & ->).
        simpl in *. destruct Hnot. split; [done|].
        rewrite Hid, (Hvocab c Hc). by eapply spreadsheet_name_icd10.
  - intros c row lang_name Hc Hrow Hid Hl Hnot.
    apply Hnames. right. exists row. split; [done|].
    apply synonym_entry_Some. split.
    + rewrite Hid. apply (final_subseteq_all _ _ _ _ Hrun).
      unfold final_concept_ids. apply elem_of_list_to_set.
      by apply list_elem_of_fmap_2.
    + exists lang_name. split_and!; [done| |done].
      by rewrite Hid, (Hvocab c Hc).
Qed.

Lemma precedence_rule_witness :
  (build_graph (py 10) icd_sample = Ok icd_sample_graph ∧
   icd10cm_chinese (py 10) icd_sample = Ok icd_sample_cm ∧
   icd10pcs_chinese (py 10) icd_sample = Ok icd_sample_pcs) ∧
  (∀ c X, c ∈ final_concepts icd_sample_graph →
     spreadsheet_name icd_sample_cm icd_sample_pcs c = Some X →
     (∃ n, n ∈ names_df icd_sample_graph ∧ chinese_name_of c X n) ∧
     (∀ n Y, n ∈ names_df icd_sample_graph → chinese_name_of c Y n → Y = X)) ∧
  (∀ c row lang_name, c ∈ final_concepts icd_sample_graph →
     row ∈ target_synonyms icd_sample →
     syn_concept_id row = concept_id c →
     dict_get (syn_language_concept_id row) (language_map icd_sample)
       = Some lang_name →
     ¬ (lang_name = "Chinese" ∧ is_icd10 (Some (vocabulary_id c))) →
     synonym_to_name row lang_name ∈ names_df icd_sample_graph).
Proof.
  split; [split_and!; vm_compute; reflexivity|].
  apply (precedence_rule (py 10) icd_sample icd_sample_graph);
    vm_compute; reflexivity.
Defined.

(** C4, the statement of the specification fails: concept 11 is an ICD10CM
    concept whose code the spreadsheet does not have; its Chinese synonym is
    one of the "other" combinations and is dropped all the same. *)
Lemma precedence_as_stated_fails :
  build_graph (py 10) icd_sample = Ok icd_sample_graph ∧
  icd10cm_chinese (py 10) icd_sample = Ok icd_sample_cm ∧
  icd10pcs_chinese (py 10) icd_sample = Ok icd_sample_pcs ∧
  ¬ precedence_as_stated icd_sample icd_sample_graph icd_sample_cm icd_sample_pcs.
Proof.
  split_and!; try (vm_compute; reflexivity). intros [_ Hother].
  specialize (Hother (fillna (concept 11 "ICD10CM" "Condition" "B99"))
                (synonym 11 "Z" zh) "Chinese").
  assert (synonym_to_name (synonym 11 "Z" zh) "Chinese"
            ∈ names_df icd_sample_graph) as Hin.
  { apply Hother.
    - right. left.
    - apply list_elem_of_filter. split; [vm_compute; reflexivity|].
      do 2 right. left.
    - reflexivity.
    - reflexivity.
    - intros [_ [v Hv]]. vm_compute in Hv. discriminate. }
  apply list_elem_of_In in Hin. simpl in Hin.
  repeat destruct Hin as [Hin|Hin]; try discriminate Hin. exact Hin.
Qed.

(** C9 (Chinese synonyms of ICD-10 concepts).  For a final concept of
    vocabulary ICD10CM or ICD10PCS the second loop appends nothing for a
    Chinese synonym row, whether the spreadsheet has the code or not: every
    Chinese name of the concept is its spreadsheet name, and a concept whose
    code the spreadsheet lacks has no Chinese name. *)
Theorem icd10_chinese_synonyms_suppressed rt inp g cm pcs c :
  build_graph rt inp = Ok g →
  icd10cm_chinese rt inp = Ok cm →
  icd10pcs_chinese rt inp = Ok pcs →
  c ∈ final_concepts g →
  is_icd10 (Some (vocabulary_id c)) →
  (∀ row, row ∈ target_synonyms inp → syn_concept_id row = concept_id c →
     dict_get (syn_language_concept_id row) (language_map inp) = Some "Chinese" →
     synonym_entry (language_map inp) (all_concept_ids g) (final_concepts g) row
     = None) ∧
  (∀ n, n ∈ names_df g → name_concept_id n = concept_id c →
     language_name n = "Chinese" → spreadsheet_name cm pcs c = Some (value n)) ∧
  (spreadsheet_name cm pcs c = None →
   ∀ n, n ∈ names_df g → name_concept_id n = concept_id c →
        language_name n ≠ "Chinese").
Proof.
  intros Hrun Hcm Hpcs Hc Hicd.
  destruct (elem_of_names_df _ _ _ Hrun)
    as (cm' & pcs' & lang & Hcm' & Hpcs' & Hlang & Hnames).
  rewrite Hcm in Hcm'. injection Hcm' as <-.
  rewrite Hpcs in Hpcs'. injection Hpcs' as <-.
  destruct (build_graph_Ok _ _ _ Hrun) as (_ & _ & _ & _ & _ & _ & Hfinal & _).
  assert (concept_vocab (final_concepts g) (concept_id c)
          = Some (vocabulary_id c)) as Hvocab.
  { rewrite Hfinal in Hc |- *. by apply concept_vocab_kept. }
  assert (∀ n, n ∈ names_df g → name_concept_id n = concept_id c →
            language_name n = "Chinese" →
            spreadsheet_name cm pcs c = Some (value n)) as Hsheet.
  { intros n Hn Hid Hchinese.
    destruct (proj1 (Hnames n) Hn) as [(c' & Hc' & He)|(row & Hrow & He)].
    - apply excel_entry_Some in He as (v & Hv & ->). simpl in *.
      assert (c' = c) as ->; [|done].
      rewrite Hfinal in Hc, Hc'.
      apply list_elem_of_filter in Hc as [_ Hc].
      apply list_elem_of_filter in Hc' as [_ Hc'].
      by apply (selected_concepts_unique inp (expanded_concept_ids g)).
    - apply synonym_entry_Some in He as (_ & l & _ & Hnot & ->).
      simpl in *. destruct Hnot. split; [done|]. by rewrite Hid, Hvocab. }
  split_and!; [|done|].
  - intros row Hrow Hid Hl.
    destruct (synonym_entry _ _ _ row) as [n|] eqn:He; [|done].
    apply synonym_entry_Some in He as (_ & l & Hl' & Hnot & _).
    rewrite Hl in Hl'. injection Hl' as <-.
    destruct Hnot. split; [done|]. by rewrite Hid, Hvocab.
  - intros Hnone n Hn Hid Hchinese.
    rewrite (Hsheet n Hn Hid Hchinese) in Hnone. discriminate.
Qed.

Lemma icd10_chinese_synonyms_suppressed_witness :
  let c := fillna (concept 11 "ICD10CM" "Condition" "B99") in
  (build_graph (py 10) icd_sample = Ok icd_sample_graph ∧
   icd10cm_chinese (py 10) icd_sample = Ok icd_sample_cm ∧
   icd10pcs_chinese (py 10) icd_sample = Ok icd_sample_pcs ∧
   c ∈ final_concepts icd_sample_graph ∧
   is_icd10 (Some (vocabulary_id c))) ∧
  (∀ row, row ∈ target_synonyms icd_sample → syn_concept_id row = concept_id c →
     dict_get (syn_language_concept_id row) (language_map icd_sample)
       = Some "Chinese" →
     synonym_entry (language_map icd_sample) (all_concept_ids icd_sample_graph)
       (final_concepts icd_sample_graph) row = None) ∧
  (∀ n, n ∈ names_df icd_sample_graph → name_concept_id n = concept_id c →
     language_name n = "Chinese" →
     spreadsheet_name icd_sample_cm icd_sample_pcs c = Some (value n)) ∧
  (spreadsheet_name icd_sample_cm icd_sample_pcs c = None →
   ∀ n, n ∈ names_df icd_sample_graph → name_concept_id n = concept_id c →
        language_name n ≠ "Chinese").
Proof.
  assert (fillna (concept 11 "ICD10CM" "Condition" "B99")
            ∈ final_concepts icd_sample_graph) as Hc by (right; left).
  split.
  - split_and!; try (vm_compute; reflexivity); [exact Hc|by left].
  - apply (icd10_chinese_synonyms_suppressed (py 10) icd_sample icd_sample_graph
             icd_sample_cm icd_sample_pcs);
      try (vm_compute; reflexivity); [exact Hc|by left].
Defined.

(** C5 (exclusion propagation).  A concept whose row has an excluded domain
    is outside the identifier set that name emission tests and outside the
    final concept set, whether the closure reached it or not; so no name and
    no end of an IS_A or MAPS_TO edge of the output is that concept. *)
Theorem exclusion_propagation rt inp g cid r :
  build_graph rt inp = Ok g →
  concept_row inp cid = Some r →
  domain_id r ∈ EXCLUDED_DOMAINS →
  (cid ∉ all_concept_ids g) ∧
  (cid ∉ final_concept_ids g) ∧
  (∀ n, n ∈ names_df g →
        name_concept_id n ∈ all_concept_ids g ∧ name_concept_id n ≠ cid) ∧
  (∀ e, e ∈ is_a_rels g ∨ e ∈ maps_to_rels g →
        (e.1 ∈ final_concept_ids g ∧ e.2 ∈ final_concept_ids g) ∧
        e.1 ≠ cid ∧ e.2 ≠ cid).
Proof.
  intros Hrun Hrow Hdom.
  assert (cid ∉ all_concept_ids g) as Hall.
  { rewrite (all_concept_ids_spec _ _ _ _ Hrun). intros [Hexp Hnot].
    apply Hnot, (excluded_concept_ids_spec _ _ _ _ Hrun). split; [done|].
    by exists r. }
  assert (cid ∉ final_concept_ids g) as Hfinal.
  { intros H. by apply Hall, (final_subseteq_all _ _ _ _ Hrun). }
  destruct (build_graph_Ok _ _ _ Hrun)
    as (_ & _ & _ & _ & _ & _ & _ & _ & _ & _ & _ & _ & His_a & Hmaps).
  split_and!; [done|done| |].
  - intros n Hn.
    pose proof (names_in_all_concept_ids _ _ _ _ Hrun Hn) as Hin.
    split; [done|]. intros Hid. apply Hall. by rewrite <- Hid.
  - intros e [He|He].
    + rewrite His_a in He. apply elem_of_final_is_a in He as (_ & H1 & H2).
      split_and!; try done; intros Heq; apply Hfinal; by rewrite <- Heq.
    + rewrite Hmaps in He. apply elem_of_final_maps_to in He as (_ & H1 & H2 & _).
      split_and!; try done; intros Heq; apply Hfinal; by rewrite <- Heq.
Qed.

Lemma exclusion_propagation_witness :
  (build_graph (py 10) scenario = Ok scenario_graph ∧
   concept_row scenario 3 = Some (concept 3 "SNOMED" "Geography" "c3") ∧
   3 ∈ expanded_concept_ids scenario_graph) ∧
  (3 ∉ all_concept_ids scenario_graph) ∧
  (3 ∉ final_concept_ids scenario_graph) ∧
  (∀ n, n ∈ names_df scenario_graph →
        name_concept_id n ∈ all_concept_ids scenario_graph ∧
        name_concept_id n ≠ 3) ∧
  (∀ e, e ∈ is_a_rels scenario_graph ∨ e ∈ maps_to_rels scenario_graph →
        (e.1 ∈ final_concept_ids scenario_graph ∧
         e.2 ∈ final_concept_ids scenario_graph) ∧
        e.1 ≠ 3 ∧ e.2 ≠ 3).
Proof.
  split; [split_and!; vm_compute; reflexivity|].
  apply (exclusion_propagation (py 10) scenario scenario_graph 3
           (concept 3 "SNOMED" "Geography" "c3")).
  - vm_compute. reflexivity.
  - reflexivity.
  - left.
Defined.

(** C6 (name uniqueness, dedup idempotence).  The names of a run hold every
    (concept, language, text) triple once; deduplicating them again changes
    nothing; and for every name list, deduplicating twice, or deduplicating
    the list appended to itself, gives as many names as deduplicating once. *)
Theorem names_unique rt inp g :
  build_graph rt inp = Ok g →
  NoDup (name_key <$> names_df g) ∧
  drop_duplicates name_key (names_df g) = names_df g ∧
  ∀ names_list : list Name,
    length (drop_duplicates name_key (drop_duplicates name_key names_list))
    = length (drop_duplicates name_key names_list) ∧
    length (drop_duplicates name_key (names_list ++ names_list))
    = length (drop_duplicates name_key names_list).
Proof.
  intros Hrun.
  destruct (build_graph_Ok _ _ _ Hrun)
    as (cm & pcs & lang & _ & _ & _ & _ & _ & _ & _ & Hnames & _).
  split_and!.
  - rewrite Hnames. apply drop_duplicates_NoDup.
  - rewrite Hnames. apply drop_duplicates_idemp.
  - intros names_list.
    by rewrite drop_duplicates_idemp, drop_duplicates_twice.
Qed.

Lemma names_unique_witness :
  build_graph (py 10) icd_sample = Ok icd_sample_graph ∧
  NoDup (name_key <$> names_df icd_sample_graph) ∧
  drop_duplicates name_key (names_df icd_sample_graph)
  = names_df icd_sample_graph ∧
  ∀ names_list : list Name,
    length (drop_duplicates name_key (drop_duplicates name_key names_list))
    = length (drop_duplicates name_key names_list) ∧
    length (drop_duplicates name_key (names_list ++ names_list))
    = length (drop_duplicates name_key names_list).
Proof.
  split; [vm_compute; reflexivity|].
  apply (names_unique (py 10) icd_sample). vm_compute. reflexivity.
Defined.

(** C7 (self-map removal).  No edge of the MAPS_TO set handed to the graph
    sink joins a concept to itself, whatever the relationship table holds. *)
Theorem no_self_maps rt inp g e :
  build_graph rt inp = Ok g → e ∈ maps_to_rels g → e.1 ≠ e.2.
Proof.
  intros Hrun He.
  destruct (build_graph_Ok _ _ _ Hrun)
    as (_ & _ & _ & _ & _ & _ & _ & _ & _ & _ & _ & _ & _ & Hmaps).
  rewrite Hmaps in He. by apply elem_of_final_maps_to in He as (_ & _ & _ & Hne).
Qed.

Lemma no_self_maps_witness :
  (build_graph (py 10) icd_sample = Ok icd_sample_graph ∧
   maps_to 1 1 ∈ relationships_df icd_sample ∧
   (10, 1) ∈ maps_to_rels icd_sample_graph) ∧
  (10, 1).1 ≠ (10, 1).2.
Proof.
  split; [split_and!; [vm_compute; reflexivity|right; left|left]|].
  apply (no_self_maps (py 10) icd_sample icd_sample_graph (10, 1)).
  - vm_compute. reflexivity.
  - left.
Defined.

(** C8 (column resolution fails fast).  When a sheet has no header with
    "ICD" and its vocabulary marker, or no header with the Chinese marker and
    the vocabulary marker, the run raises [IndexError] and hands nothing to
    the graph sink; no other column is taken instead. *)
Theorem missing_column_raises rt inp :
  code_columns "CM" (icd10cm_df inp) = [] ∨
  chinese_columns rt "CM" (icd10cm_df inp) = [] ∨
  code_columns "PCS" (icd10pcs_df inp) = [] ∨
  chinese_columns rt "PCS" (icd10pcs_df inp) = [] →
  build_graph rt inp = Raise IndexError.
Proof.
  intros H. unfold build_graph, icd10cm_chinese, icd10pcs_chinese,
    resolve_columns.
  destruct (code_columns "CM" (icd10cm_df inp)) as [|c1 l1]; [done|].
  destruct (chinese_columns rt "CM" (icd10cm_df inp)) as [|c2 l2]; [done|].
  destruct (code_columns "PCS" (icd10pcs_df inp)) as [|c3 l3]; [done|].
  destruct (chinese_columns rt "PCS" (icd10pcs_df inp)) as [|c4 l4]; [done|].
  by destruct H as [H|[H|[H|H]]].
Qed.

Lemma missing_column_raises_witness :
  chinese_columns (py 10) "CM" (icd10cm_df english_only) = [] ∧
  build_graph (py 10) english_only = Raise IndexError.
Proof.
  split; [reflexivity|].
  apply (missing_column_raises (py 10) english_only). right. left. reflexivity.
Defined.

(** A sheet without any header that has the Chinese marker resolves no
    Chinese column. *)
Lemma no_chinese_marker rt marker sh :
  (∀ c, c ∈ columns sh → contains zhongwen c = false) →
  chinese_columns rt marker sh = [].
Proof.
  intros Hnone. unfold chinese_columns.
  induction (columns sh) as [|c l IH]; [done|].
  rewrite filter_cons, (Hnone c) by by left. simpl.
  apply IH. intros c' Hc'. apply Hnone. by right.
Qed.

(** C10 (names without a concept record).  Name emission tests the
    identifier set, not the concept table: the target-language synonym of a
    concept that the concept file does not have is in the final name list,
    and its concept is not among the final concepts. *)
Theorem name_without_concept rt inp g row :
  build_graph rt inp = Ok g →
  row ∈ target_synonyms inp →
  concept_row inp (syn_concept_id row) = None →
  (∃ lang_name,
     dict_get (syn_language_concept_id row) (language_map inp) = Some lang_name ∧
     synonym_to_name row lang_name ∈ names_df g) ∧
  (syn_concept_id row ∉ final_concept_ids g).
Proof.
  intros Hrun Hrow Hnone.
  destruct (elem_of_names_df _ _ _ Hrun) as (cm & pcs & lang & _ & _ & _ & Hnames).
  destruct (build_graph_Ok _ _ _ Hrun) as (_ & _ & _ & _ & _ & Hexp & _).
  assert (syn_concept_id row ∉ final_concept_ids g) as Hfinal.
  { rewrite (final_concept_ids_spec _ _ _ _ Hrun).
    intros (_ & r & Hr & _). congruence. }
  split; [|done].
  destruct (target_synonym_language _ _ Hrow) as [lang_name Hl].
  exists lang_name. split; [done|]. apply Hnames. right. exists row.
  split; [done|]. apply synonym_entry_Some. split.
  - rewrite (all_concept_ids_spec _ _ _ _ Hrun). split.
    + apply (expand_concepts_seeds _ _ _ _ _ Hexp).
      apply elem_of_list_to_set. by apply list_elem_of_fmap_2.
    + rewrite (excluded_concept_ids_spec _ _ _ _ Hrun).
      intros (_ & r & Hr & _). congruence.
  - exists lang_name. split_and!; [done| |done].
    rewrite concept_vocab_None.
    + intros [_ [?|?]]; done.
    + intros H. apply Hfinal. unfold final_concept_ids.
      by apply elem_of_list_to_set.
Qed.

Lemma name_without_concept_witness :
  (build_graph (py 10) icd_sample = Ok icd_sample_graph ∧
   synonym 9 "Waise" de ∈ target_synonyms icd_sample ∧
   concept_row icd_sample 9 = None) ∧
  (∃ lang_name,
     dict_get de (language_map icd_sample) = Some lang_name ∧
     synonym_to_name (synonym 9 "Waise" de) lang_name
       ∈ names_df icd_sample_graph) ∧
  (9 ∉ final_concept_ids icd_sample_graph).
Proof.
  assert (synonym 9 "Waise" de ∈ target_synonyms icd_sample) as Hrow.
  { apply list_elem_of_filter. split; [vm_compute; reflexivity|].
    do 3 right. left. }
  split; [split_and!; [vm_compute; reflexivity|exact Hrow|reflexivity]|].
  apply (name_without_concept (py 10) icd_sample icd_sample_graph
           (synonym 9 "Waise" de)).
  - vm_compute. reflexivity.
  - exact Hrow.
  - reflexivity.
Defined.

(** * Further properties of the code *)

(** ** [load_languages] and the Chinese language identifier *)

Lemma dict_get_set k k' v d :
  dict_get k (dict_set k' v d) = if decide (k = k') then Some v else dict_get k d.
Proof.
  induction d as [|[k0 v0] d IH]; simpl.
  - destruct (decide (k' = k)) as [->|Hne].
    + by rewrite decide_True.
    + by rewrite decide_False by done.
  - destruct (decide (k0 = k')) as [->|Hne]; simpl.
    + destruct (decide (k' = k)) as [->|Hne].
      * by rewrite decide_True.
      * by rewrite decide_False by done.
    + rewrite IH. destruct (decide (k0 = k)) as [->|Hne']; [|done].
      by rewrite decide_False by done.
Qed.

Lemma load_languages_snoc rows row :
  load_languages (rows ++ [row]) = dict_set row.1 row.2 (load_languages rows).
Proof. unfold load_languages. by rewrite foldl_app. Qed.

(** X1.  The language map has every identifier once, and the name it gives
    to an identifier is the one of the last row of the file with that
    identifier. *)
Theorem load_languages_last_wins rows k :
  NoDup (load_languages rows).*1 ∧
  dict_get k (load_languages rows) = snd <$> last (filter (λ kv, kv.1 = k) rows).
Proof.
  split; [apply load_languages_NoDup|].
  induction rows as [|row rows IH] using rev_ind; [done|].
  rewrite load_languages_snoc, dict_get_set, filter_app, filter_cons, filter_nil.
  destruct (decide (k = row.1)) as [->|Hne].
  - rewrite decide_True by done. by rewrite last_snoc.
  - rewrite decide_False by done. by rewrite app_nil_r.
Qed.

Lemma resolve_columns_Raise rt marker sh e :
  resolve_columns rt marker sh = Raise e → e = IndexError.
Proof.
  unfold resolve_columns.
  destruct (code_columns marker sh); simpl; [by intros [= <-]|].
  destruct (chinese_columns rt marker sh); simpl; [by intros [= <-]|done].
Qed.

Lemma traverse_Raise rt links depth : ∀ c visited e,
  traverse rt links depth c visited = Raise e → e = RecursionError.
Proof.
  induction depth as [|depth IH]; intros c visited e; simpl; [by intros [= <-]|].
  case_decide; [done|]. destruct (links !! c) as [next|]; [|done].
  generalize (c :: visited).
  induction (set_iter rt next) as [|p l IHl]; intros v; simpl; [done|].
  destruct (traverse rt links depth p v) as [v'|e'] eqn:Hp; simpl.
  - apply IHl.
  - intros [= <-]. by eapply IH.
Qed.

Lemma hierarchy_step_Raise rt rels c acc e :
  hierarchy_step rt rels c acc = Raise e → e = RecursionError.
Proof.
  unfold hierarchy_step.
  destruct (get_all_ancestors rt rels (recursion_limit rt) c []) as [anc|e1]
    eqn:Hanc; simpl.
  - destruct (get_all_descendants rt rels (recursion_limit rt) c []) as [desc|e2]
      eqn:Hdesc; simpl; [done|].
    intros [= <-]. by eapply traverse_Raise.
  - intros [= <-]. by eapply traverse_Raise.
Qed.

Lemma expand_concepts_Raise rt seeds rels e :
  expand_concepts rt seeds rels = Raise e → e = RecursionError.
Proof.
  unfold expand_concepts, all_hierarchy_concepts.
  destruct (for_each _ _ _) as [h|e'] eqn:Hloop; simpl; [done|].
  intros [= <-]. revert Hloop. generalize (∅ : gset Z).
  induction (set_iter rt (starting_concepts seeds rels)) as [|c l IH];
    intros acc; simpl; [done|].
  destruct (hierarchy_step rt rels c acc) as [acc'|e1] eqn:Hstep; simpl.
  - apply IH.
  - intros [= <-]. by eapply hierarchy_step_Raise.
Qed.

Lemma chinese_lang_id_Raise inp :
  (∀ k, dict_get k (language_map inp) ≠ Some "Chinese") →
  chinese_lang_id (language_map inp) = Raise IndexError.
Proof.
  intros Hnone. unfold chinese_lang_id.
  destruct (filter (λ kv, kv.2 = "Chinese") (language_map inp))
    as [|[k v] l] eqn:Hfilter; [done|].
  assert ((k, v) ∈ filter (λ kv : Z * string, kv.2 = "Chinese") (language_map inp))
    as [Hv Hin]%list_elem_of_filter by (rewrite Hfilter; by left).
  simpl in Hv. subst v. destruct (Hnone k).
  apply dict_get_NoDup; [apply load_languages_NoDup|done].
Qed.

(** X2.  Without a language named Chinese in the language file the run
    hands nothing to the graph sink: it ends in [IndexError] (or, before
    that, in the [RecursionError] of a traversal), whatever the languages
    and vocabularies of the data are. *)
Theorem no_chinese_language rt inp :
  (∀ k, dict_get k (language_map inp) ≠ Some "Chinese") →
  build_graph rt inp = Raise IndexError ∨
  build_graph rt inp = Raise RecursionError.
Proof.
  intros Hnone. unfold build_graph, icd10cm_chinese, icd10pcs_chinese.
  destruct (resolve_columns rt "CM" (icd10cm_df inp)) as [cm|e] eqn:Hcm; simpl.
  2: { left. by rewrite (resolve_columns_Raise _ _ _ _ Hcm). }
  destruct (resolve_columns rt "PCS" (icd10pcs_df inp)) as [pcs|e] eqn:Hpcs; simpl.
  2: { left. by rewrite (resolve_columns_Raise _ _ _ _ Hpcs). }
  destruct (expand_concepts rt (concepts_with_translations inp)
              (relationships_df inp)) as [expanded|e] eqn:Hexp; simpl.
  2: { right. by rewrite (expand_concepts_Raise _ _ _ _ Hexp). }
  left. by rewrite (chinese_lang_id_Raise inp Hnone).
Qed.

Lemma no_chinese_language_witness :
  (∀ k, dict_get k (language_map german_only) ≠ Some "Chinese") ∧
  (build_graph (py 10) german_only = Raise IndexError ∨
   build_graph (py 10) german_only = Raise RecursionError).
Proof.
  assert (∀ k, dict_get k (language_map german_only) ≠ Some "Chinese") as Hnone.
  { intros k. change (language_map german_only) with [(de, "German")]. simpl.
    case_decide; discriminate. }
  split; [exact Hnone|].
  apply (no_chinese_language (py 10) german_only). exact Hnone.
Defined.

(** ** The spreadsheet *)

Lemma first_filter_leftmost {A : Type} (P : A → Prop) `{∀ x, Decision (P x)}
    (l : list A) x :
  first (filter P l) = Ok x →
  ∃ l1 l2, l = l1 ++ x :: l2 ∧ P x ∧ ∀ y, y ∈ l1 → ¬ P y.
Proof.
  induction l as [|a l IH]; [done|]. rewrite filter_cons.
  destruct (decide (P a)) as [Ha|Ha].
  - intros [= <-]. exists [], l. split_and!; [done|done|].
    intros y Hy. by apply elem_of_nil in Hy.
  - intros (l1 & l2 & -> & Hx & Hl1)%IH. exists (a :: l1), l2.
    split_and!; [done|done|]. intros y [->|Hy]%elem_of_cons; auto.
Qed.

(** X3.  The columns that a sheet resolves to are headers of the sheet that
    pass the test, and each is the leftmost header that does: further
    matching headers are ignored, not reported. *)
Theorem resolve_columns_leftmost rt marker sh code_col chinese_col :
  resolve_columns rt marker sh = Ok (code_col, chinese_col) →
  (∃ l1 l2, columns sh = l1 ++ code_col :: l2 ∧ code_header marker code_col ∧
            ∀ c, c ∈ l1 → ¬ code_header marker c) ∧
  (∃ l1 l2, columns sh = l1 ++ chinese_col :: l2 ∧
            chinese_header rt marker chinese_col ∧
            ∀ c, c ∈ l1 → ¬ chinese_header rt marker c).
Proof.
  unfold resolve_columns. intros (c1 & H1 & H)%bind_Ok.
  apply bind_Ok in H as (c2 & H2 & [= <- <-]). split.
  - by apply first_filter_leftmost in H1.
  - by apply first_filter_leftmost in H2.
Qed.

Lemma resolve_columns_leftmost_witness :
  let code_col := "ICD-10-CM" in
  let chinese_col := "cm " +:+ zhongwen in
  resolve_columns (py 10) "CM" wide_sheet = Ok (code_col, chinese_col) ∧
  (∃ l1 l2, columns wide_sheet = l1 ++ code_col :: l2 ∧
            code_header "CM" code_col ∧ ∀ c, c ∈ l1 → ¬ code_header "CM" c) ∧
  (∃ l1 l2, columns wide_sheet = l1 ++ chinese_col :: l2 ∧
            chinese_header (py 10) "CM" chinese_col ∧
            ∀ c, c ∈ l1 → ¬ chinese_header (py 10) "CM" c).
Proof.
  split; [reflexivity|].
  apply (resolve_columns_leftmost (py 10) "CM" wide_sheet). reflexivity.
Defined.

Lemma chinese_row_entry rt sh cols d row :
  chinese_row rt sh cols.1 cols.2 d row =
  match sheet_entry rt sh cols row with
  | Some (code, chinese_name) => <[code := chinese_name]> d
  | None => d
  end.
Proof.
  unfold chinese_row, sheet_entry.
  destruct (cell sh row cols.1) as [c|]; destruct (cell sh row cols.2) as [n|];
    simpl; try done.
  repeat case_decide; try done; tauto.
Qed.

Lemma chinese_dict_lookup rt sh cols code :
  chinese_dict rt sh cols !! code =
  snd <$> last (filter (λ e, e.1 = code)
                       (omap (sheet_entry rt sh cols) (sheet_rows sh))).
Proof.
  unfold chinese_dict.
  induction (sheet_rows sh) as [|row rows IH] using rev_ind; [done|].
  rewrite foldl_app, omap_app, filter_app. simpl.
  rewrite chinese_row_entry.
  destruct (sheet_entry rt sh cols row) as [[k v]|]; simpl.
  - rewrite filter_cons, filter_nil. simpl.
    destruct (decide (k = code)) as [->|Hne].
    + by rewrite lookup_insert_eq, last_snoc.
    + by rewrite lookup_insert_ne, app_nil_r by done.
  - by rewrite filter_nil, app_nil_r.
Qed.

(** X4.  When several rows of a sheet give the same code, the dictionary
    holds the name of the last of them; rows with a missing, empty or "nan"
    code or name do not count. *)
Theorem chinese_dict_last_wins rt sh cols code :
  chinese_dict rt sh cols !! code =
  snd <$> last (filter (λ e, e.1 = code)
                       (omap (sheet_entry rt sh cols) (sheet_rows sh))).
Proof. apply chinese_dict_lookup. Qed.

(** X5.  Every entry of a spreadsheet dictionary comes from a row of the
    sheet whose two cells are present; the code and the name are the
    stripped cells, and neither is empty or "nan". *)
Theorem chinese_dict_clean rt sh cols code chinese_name :
  chinese_dict rt sh cols !! code = Some chinese_name →
  (code ≠ "" ∧ code ≠ "nan" ∧ chinese_name ≠ "" ∧ chinese_name ≠ "nan") ∧
  ∃ row c n, row ∈ sheet_rows sh ∧
    cell sh row cols.1 = Some c ∧ str_strip rt c = code ∧
    cell sh row cols.2 = Some n ∧ str_strip rt n = chinese_name.
Proof.
  rewrite chinese_dict_lookup. intros Hlast.
  destruct (last _) as [[k v]|] eqn:Hl; [|done]. injection Hlast as ->.
  apply last_Some_elem_of, list_elem_of_filter in Hl as [Hk Hin].
  simpl in Hk. subst k.
  apply list_elem_of_omap in Hin as (row & Hrow & Hentry).
  unfold sheet_entry in Hentry.
  destruct (cell sh row cols.1) as [c|] eqn:Hc; [|done].
  destruct (cell sh row cols.2) as [n|] eqn:Hn; [|done].
  simpl in Hentry. case_decide as Hok; [|done]. injection Hentry as <- <-.
  split; [tauto|]. by exists row, c, n.
Qed.

Lemma chinese_dict_clean_witness :
  let cols := ("ICD-10-CM", "cm " +:+ zhongwen) in
  chinese_dict (py 10) wide_sheet cols !! "A00" = Some "later" ∧
  ("A00" ≠ "" ∧ "A00" ≠ "nan" ∧ "later" ≠ "" ∧ "later" ≠ "nan") ∧
  ∃ row c n, row ∈ sheet_rows wide_sheet ∧
    cell wide_sheet row cols.1 = Some c ∧ str_strip (py 10) c = "A00" ∧
    cell wide_sheet row cols.2 = Some n ∧ str_strip (py 10) n = "later".
Proof.
  split; [vm_compute; reflexivity|].
  apply (chinese_dict_clean (py 10) wide_sheet). vm_compute. reflexivity.
Defined.

(** ** The expansion and the traversals *)

(** X6.  The expansion imports nothing unrelated: every identifier of the
    expanded set is a seed or a one-hop concept, or an ancestor or a
    descendant of one along the is-a rows. *)
Theorem expansion_sound rt seeds rels expanded x :
  expand_concepts rt seeds rels = Ok expanded →
  x ∈ expanded →
  ∃ s, one_hop seeds rels s ∧
       (rtc (is_a_edge rels) s x ∨ rtc (is_a_edge rels) x s).
Proof. intros Hrun Hx. by apply (expand_concepts_spec _ _ _ _ Hrun). Qed.

Lemma expansion_sound_witness :
  let rels := relationships_df scenario in
  expand_concepts (py 10) {[1]} rels = Ok (list_to_set [1; 2; 3]) ∧
  3 ∈ (list_to_set [1; 2; 3] : gset Z) ∧
  ∃ s, one_hop {[1]} rels s ∧
       (rtc (is_a_edge rels) s 3 ∨ rtc (is_a_edge rels) 3 s).
Proof.
  split; [vm_compute; reflexivity|]. split; [vm_compute; reflexivity|].
  apply (expansion_sound (py 10) {[1]} (relationships_df scenario)
           (list_to_set [1; 2; 3])); vm_compute; reflexivity.
Defined.

Lemma resolve_columns_ext rt rt' marker sh :
  str_upper rt = str_upper rt' →
  resolve_columns rt marker sh = resolve_columns rt' marker sh.
Proof. intros H. unfold resolve_columns, chinese_columns. by rewrite H. Qed.

Lemma chinese_dict_ext rt rt' sh cols :
  str_strip rt = str_strip rt' → chinese_dict rt sh cols = chinese_dict rt' sh cols.
Proof.
  intros H. unfold chinese_dict.
  assert (chinese_row rt sh cols.1 cols.2 = chinese_row rt' sh cols.1 cols.2)
    as ->; [|done].
  unfold chinese_row. by rewrite H.
Qed.

(** X7.  What a run hands to the graph sink does not depend on the order in
    which Python iterates its sets, nor on the recursion limit: two runs on
    the same input that both reach the sink produce the same concepts, names
    and edges. *)
Theorem build_graph_order_independent rt rt' inp g g' :
  str_upper rt = str_upper rt' →
  str_strip rt = str_strip rt' →
  build_graph rt inp = Ok g →
  build_graph rt' inp = Ok g' →
  g = g'.
Proof.
  intros Hupper Hstrip Hrun Hrun'.
  destruct (build_graph_Ok _ _ _ Hrun)
    as (cm & pcs & lang & Hcm & Hpcs & Hexp & Hfinal & Hexcl & Hall & Hlang &
        Hnames & _ & His_a & Hmaps).
  destruct (build_graph_Ok _ _ _ Hrun')
    as (cm' & pcs' & lang' & Hcm' & Hpcs' & Hexp' & Hfinal' & Hexcl' & Hall' &
        Hlang' & Hnames' & _ & His_a' & Hmaps').
  assert (expanded_concept_ids g = expanded_concept_ids g') as Heq.
  { apply set_eq. intros x.
    by rewrite (expand_concepts_spec _ _ _ _ Hexp),
      (expand_concepts_spec _ _ _ _ Hexp'). }
  assert (cm = cm') as <-.
  { unfold icd10cm_chinese in Hcm, Hcm'.
    rewrite (resolve_columns_ext rt rt') in Hcm by done.
    destruct (resolve_columns rt' "CM" (icd10cm_df inp)); [|done].
    simpl in *. rewrite (chinese_dict_ext rt rt') in Hcm by done. congruence. }
  assert (pcs = pcs') as <-.
  { unfold icd10pcs_chinese in Hpcs, Hpcs'.
    rewrite (resolve_columns_ext rt rt') in Hpcs by done.
    destruct (resolve_columns rt' "PCS" (icd10pcs_df inp)); [|done].
    simpl in *. rewrite (chinese_dict_ext rt rt') in Hpcs by done. congruence. }
  assert (lang = lang') as <- by congruence.
  unfold final_concept_ids in *.
  destruct g, g'. simpl in *. by subst.
Qed.

Lemma build_graph_order_independent_witness :
  (str_upper (py 10) = str_upper (py_reversed 7) ∧
   str_strip (py 10) = str_strip (py_reversed 7) ∧
   build_graph (py 10) icd_sample = Ok icd_sample_graph ∧
   build_graph (py_reversed 7) icd_sample = Ok icd_sample_graph) ∧
  icd_sample_graph = icd_sample_graph.
Proof.
  split; [split_and!; try reflexivity; vm_compute; reflexivity|].
  apply (build_graph_order_independent (py 10) (py_reversed 7) icd_sample);
    try reflexivity; vm_compute; reflexivity.
Defined.

Lemma for_each_monotone {A S : Type} (f f' : A → S → result S) l :
  (∀ x s s', f x s = Ok s' → f' x s = Ok s') →
  ∀ s s', for_each f l s = Ok s' → for_each f' l s = Ok s'.
Proof.
  intros Hf. induction l as [|x l IH]; intros s s'; [done|].
  rewrite !for_each_cons. intros (s1 & H1 & Hrest). exists s1. auto.
Qed.

Lemma traverse_depth_succ rt links depth : ∀ c visited visited',
  traverse rt links depth c visited = Ok visited' →
  traverse rt links (S depth) c visited = Ok visited'.
Proof.
  induction depth as [|depth IH]; intros c visited visited' Hrun; [done|].
  simpl in Hrun. change (traverse rt links (S (S depth)) c visited) with
    (if decide (c ∈ visited) then Ok visited
     else match links !! c with
          | Some next =>
              for_each (traverse rt links (S depth)) (set_iter rt next)
                (c :: visited)
          | None => Ok (c :: visited)
          end).
  case_decide; [done|]. destruct (links !! c) as [next|]; [|done].
  by apply (for_each_monotone _ _ _ IH).
Qed.

Lemma traverse_depth_le rt links depth depth' c visited visited' :
  (depth ≤ depth')%nat →
  traverse rt links depth c visited = Ok visited' →
  traverse rt links depth' c visited = Ok visited'.
Proof.
  induction 1 as [|depth' _ IH]; [done|].
  intros Hrun. by apply traverse_depth_succ, IH.
Qed.

(** X8.  A traversal that returns with some recursion depth returns the
    same [visited] with any greater depth: raising the limit never changes
    a result. *)
Theorem traversal_depth_monotone rt rels depth depth' c :
  (depth ≤ depth')%nat →
  (∀ visited, get_all_ancestors rt rels depth c [] = Ok visited →
              get_all_ancestors rt rels depth' c [] = Ok visited) ∧
  (∀ visited, get_all_descendants rt rels depth c [] = Ok visited →
              get_all_descendants rt rels depth' c [] = Ok visited).
Proof. intros Hle. split; intros visited; by apply traverse_depth_le. Qed.

Lemma traversal_depth_monotone_witness :
  (5 ≤ 9)%nat ∧
  get_all_ancestors (py 9) cycle 5 1 [] = Ok [4; 3; 2; 1] ∧
  get_all_ancestors (py 9) cycle 9 1 [] = Ok [4; 3; 2; 1].
Proof.
  assert (5 ≤ 9)%nat as Hle by lia.
  assert (get_all_ancestors (py 9) cycle 5 1 [] = Ok [4; 3; 2; 1]) as Hrun
    by (vm_compute; reflexivity).
  split; [exact Hle|]. split; [exact Hrun|].
  exact (proj1 (traversal_depth_monotone (py 9) cycle 5 9 1 Hle) [4; 3; 2; 1] Hrun).
Defined.

(** X9.  A concept that occurs in no is-a row is its own and only ancestor
    and descendant: with one level of recursion both traversals return the
    set that holds just the concept, not the empty set. *)
Theorem traversal_outside_hierarchy rt rels depth c :
  (0 < depth)%nat →
  c ∉ hierarchy_nodes rels →
  get_all_ancestors rt rels depth c [] = Ok [c] ∧
  get_all_descendants rt rels depth c [] = Ok [c].
Proof.
  intros Hdepth Hc. destruct depth as [|depth]; [lia|].
  assert (parents rels !! c = None) as Hp.
  { apply eq_None_not_Some.
    intros (r & Hr & Hx)%lookup_dicts_is_Some.
    apply Hc, elem_of_hierarchy_nodes. exists r. auto. }
  assert (children rels !! c = None) as Hch.
  { apply eq_None_not_Some.
    intros (r & Hr & Hx)%lookup_dicts_is_Some.
    apply Hc, elem_of_hierarchy_nodes. exists r. auto. }
  unfold get_all_ancestors, get_all_descendants. simpl. by rewrite Hp, Hch.
Qed.

Lemma traversal_outside_hierarchy_witness :
  ((0 < 1)%nat ∧ 7 ∉ hierarchy_nodes cycle) ∧
  get_all_ancestors (py 1) cycle 1 7 [] = Ok [7] ∧
  get_all_descendants (py 1) cycle 1 7 [] = Ok [7].
Proof.
  assert (7 ∉ hierarchy_nodes cycle) as Hc.
  { intros H. vm_compute in H. discriminate. }
  split; [split; [lia|exact Hc]|].
  apply (traversal_outside_hierarchy (py 1) cycle 1 7); [lia|exact Hc].
Defined.

Lemma expand_concepts_empty rt rels : expand_concepts rt ∅ rels = Ok ∅.
Proof.
  assert (starting_concepts ∅ rels = ∅) as Hstart.
  { apply set_eq. intros x. rewrite starting_one_hop. unfold one_hop. split.
    - intros [H|(s & H & _)]; by apply not_elem_of_empty in H.
    - by intros ?%not_elem_of_empty. }
  assert (additional_concepts ∅ rels = ∅) as Hadd.
  { apply set_eq. intros x. split; [|by intros ?%not_elem_of_empty].
    intros Hx. rewrite <- Hstart. unfold starting_concepts.
    apply elem_of_union. by right. }
  unfold expand_concepts, all_hierarchy_concepts. rewrite Hstart, Hadd.
  pose proof (set_iter_perm rt ∅) as Hperm. rewrite elements_empty in Hperm.
  apply Permutation_nil_r in Hperm. rewrite Hperm. simpl. by f_equal.
Qed.

Lemma kept_concepts_empty inp : kept_concepts inp ∅ = [].
Proof.
  apply elem_of_nil_inv. intros c (H & _)%elem_of_kept_concepts.
  by apply not_elem_of_empty in H.
Qed.

(** X10.  When no synonym row is in a target language nothing is imported
    and the run does not reach the graph sink: the seed set is empty, no
    traversal starts, and the empty name list ends the run in [KeyError]
    (or an unresolved column or the missing Chinese language ends it in
    [IndexError] before). *)
Theorem no_target_synonyms rt inp :
  target_synonyms inp = [] →
  build_graph rt inp = Raise IndexError ∨ build_graph rt inp = Raise KeyError.
Proof.
  intros Hnone. unfold build_graph, icd10cm_chinese, icd10pcs_chinese.
  destruct (resolve_columns rt "CM" (icd10cm_df inp)) as [cm|e] eqn:Hcm; simpl.
  2: { left. by rewrite (resolve_columns_Raise _ _ _ _ Hcm). }
  destruct (resolve_columns rt "PCS" (icd10pcs_df inp)) as [pcs|e] eqn:Hpcs; simpl.
  2: { left. by rewrite (resolve_columns_Raise _ _ _ _ Hpcs). }
  unfold concepts_with_translations. rewrite Hnone. simpl.
  rewrite expand_concepts_empty. simpl. rewrite kept_concepts_empty.
  destruct (chinese_lang_id (language_map inp)) as [lang|e] eqn:Hlang; simpl.
  - by right.
  - left. unfold chinese_lang_id in Hlang.
    destruct (filter _ (language_map inp)); [|done]. by injection Hlang as <-.
Qed.

Lemma no_target_synonyms_witness :
  target_synonyms no_translations = [] ∧
  (build_graph (py 10) no_translations = Raise IndexError ∨
   build_graph (py 10) no_translations = Raise KeyError).
Proof.
  split; [vm_compute; reflexivity|].
  apply (no_target_synonyms (py 10) no_translations). vm_compute. reflexivity.
Defined.

(** ** The concept table, the names and the edges of a run *)

Lemma drop_duplicates_from_sublist {A K : Type} `{EqDecision K} (key : A → K)
    seen l :
  drop_duplicates_from key seen l `sublist_of` l.
Proof.
  revert seen. induction l as [|x l IH]; intros seen; simpl; [constructor|].
  case_decide; [apply sublist_cons|apply sublist_skip]; apply IH.
Qed.

Lemma kept_concepts_sublist inp ids :
  kept_concepts inp ids `sublist_of` (fillna <$> concepts_df inp).
Proof.
  unfold kept_concepts, selected_concepts, drop_duplicates.
  etrans; [apply sublist_filter|].
  etrans; [apply drop_duplicates_from_sublist|]. apply sublist_filter.
Qed.

Lemma kept_concepts_NoDup inp ids : NoDup (concept_id <$> kept_concepts inp ids).
Proof.
  eapply sublist_NoDup;
    [apply (drop_duplicates_NoDup concept_id
              (filter (λ c, concept_id c ∈ ids) (fillna <$> concepts_df inp)))|].
  apply fmap_sublist, sublist_filter.
Qed.

(** X11.  The concept nodes of a run: no identifier occurs twice (the
    uniqueness constraint of the sink cannot be violated), the nodes are rows
    of the concept file in file order with the missing standard-concept flag
    replaced by the empty string, each is in the expanded set, and none has
    an excluded domain. *)
Theorem final_concepts_invariant rt inp g :
  build_graph rt inp = Ok g →
  NoDup (concept_id <$> final_concepts g) ∧
  final_concepts g `sublist_of` (fillna <$> concepts_df inp) ∧
  ∀ c, c ∈ final_concepts g →
       is_Some (standard_concept c) ∧
       concept_id c ∈ expanded_concept_ids g ∧
       domain_id c ∉ EXCLUDED_DOMAINS.
Proof.
  intros Hrun.
  destruct (build_graph_Ok _ _ _ Hrun) as (_ & _ & _ & _ & _ & _ & Hfinal & _).
  rewrite Hfinal. split_and!.
  - apply kept_concepts_NoDup.
  - apply kept_concepts_sublist.
  - intros c Hc. pose proof Hc as (Hin & Hrow & Hdom)%elem_of_kept_concepts.
    split_and!; [|done|done].
    destruct (concept_row inp (concept_id c)) as [r|]; [|done].
    injection Hrow as <-. simpl. by eexists.
Qed.

Lemma final_concepts_invariant_witness :
  build_graph (py 10) scenario = Ok scenario_graph ∧
  NoDup (concept_id <$> final_concepts scenario_graph) ∧
  final_concepts scenario_graph `sublist_of` (fillna <$> concepts_df scenario) ∧
  ∀ c, c ∈ final_concepts scenario_graph →
       is_Some (standard_concept c) ∧
       concept_id c ∈ expanded_concept_ids scenario_graph ∧
       domain_id c ∉ EXCLUDED_DOMAINS.
Proof.
  split; [vm_compute; reflexivity|].
  apply (final_concepts_invariant (py 10) scenario). vm_compute. reflexivity.
Defined.

(** X12.  The identifier sets of a run are nested, final concepts inside
    the set that name emission tests inside the expanded set, and an
    identifier passes the test of name emission without being a final
    concept exactly when it is expanded and the concept file has no row for
    it. *)
Theorem identifier_sets rt inp g cid :
  build_graph rt inp = Ok g →
  (cid ∈ final_concept_ids g → cid ∈ all_concept_ids g) ∧
  (cid ∈ all_concept_ids g → cid ∈ expanded_concept_ids g) ∧
  (cid ∈ all_concept_ids g ∧ cid ∉ final_concept_ids g ↔
   cid ∈ expanded_concept_ids g ∧ concept_row inp cid = None).
Proof.
  intros Hrun. split_and!.
  - apply (final_subseteq_all _ _ _ _ Hrun).
  - by intros [? _]%(all_concept_ids_spec _ _ _ _ Hrun).
  - rewrite (all_concept_ids_spec _ _ _ _ Hrun),
      (final_concept_ids_spec _ _ _ _ Hrun),
      (excluded_concept_ids_spec _ _ _ _ Hrun).
    destruct (concept_row inp cid) as [r|] eqn:Hrow; split.
    + intros [[Hexp Hnot] Hfinal].
      destruct (decide (domain_id r ∈ EXCLUDED_DOMAINS)).
      * destruct Hnot. split; [done|]. by exists r.
      * destruct Hfinal. split; [done|]. by exists r.
    + by intros [_ ?].
    + by intros [[Hexp _] _].
    + intros [Hexp _]. split; [split; [done|]|];
        intros (_ & r & ? & _); done.
Qed.

Lemma identifier_sets_witness :
  build_graph (py 10) icd_sample = Ok icd_sample_graph ∧
  (9 ∈ final_concept_ids icd_sample_graph → 9 ∈ all_concept_ids icd_sample_graph) ∧
  (9 ∈ all_concept_ids icd_sample_graph →
   9 ∈ expanded_concept_ids icd_sample_graph) ∧
  (9 ∈ all_concept_ids icd_sample_graph ∧ 9 ∉ final_concept_ids icd_sample_graph ↔
   9 ∈ expanded_concept_ids icd_sample_graph ∧ concept_row icd_sample 9 = None).
Proof.
  split; [vm_compute; reflexivity|].
  apply (identifier_sets (py 10) icd_sample). vm_compute. reflexivity.
Defined.

(** X13.  Every name of a run carries the identifier of a language of the
    language file together with the name that the file gives to that
    language; the names taken from the spreadsheet carry the identifier that
    the file names Chinese. *)
Theorem names_language rt inp g n :
  build_graph rt inp = Ok g →
  n ∈ names_df g →
  language_concept_id n ∈ target_language_ids inp ∧
  dict_get (language_concept_id n) (language_map inp) = Some (language_name n).
Proof.
  intros Hrun Hn.
  destruct (elem_of_names_df _ _ _ Hrun)
    as (cm & pcs & lang & _ & _ & Hlang & Hnames).
  assert (dict_get (language_concept_id n) (language_map inp)
          = Some (language_name n)) as Hget.
  { destruct (proj1 (Hnames n) Hn) as [(c & _ & He)|(row & _ & He)].
    - apply excel_entry_Some in He as (v & _ & ->). simpl.
      by apply chinese_lang_id_Ok.
    - by apply synonym_entry_Some in He as (_ & l & Hl & _ & ->). }
  split; [|done]. apply elem_of_list_to_set, list_elem_of_fmap.
  exists (language_concept_id n, language_name n).
  split; [done|]. by apply dict_get_elem_of.
Qed.

Lemma names_language_witness :
  (build_graph (py 10) icd_sample = Ok icd_sample_graph ∧
   name 10 "X" zh "Chinese" ∈ names_df icd_sample_graph) ∧
  zh ∈ target_language_ids icd_sample ∧
  dict_get zh (language_map icd_sample) = Some "Chinese".
Proof.
  split; [split; [vm_compute; reflexivity|left]|].
  apply (names_language (py 10) icd_sample icd_sample_graph
           (name 10 "X" zh "Chinese")); [vm_compute; reflexivity|left].
Defined.

(** X14.  The edge sets are exact: an IS_A edge is handed to the sink for a
    pair of concepts exactly when the relationship table has an "Is a" row
    for the pair and both are final concepts, a MAPS_TO edge exactly when it
    has a "Maps to" row for the pair, both are final concepts and they
    differ.  Rows with another relationship label and rows with an end
    outside the final concepts give no edge and no error. *)
Theorem edges_exact rt inp g a b :
  build_graph rt inp = Ok g →
  ((a, b) ∈ is_a_rels g ↔
   is_a_edge (relationships_df inp) a b ∧
   a ∈ final_concept_ids g ∧ b ∈ final_concept_ids g) ∧
  ((a, b) ∈ maps_to_rels g ↔
   maps_to_edge (relationships_df inp) a b ∧
   a ∈ final_concept_ids g ∧ b ∈ final_concept_ids g ∧ a ≠ b).
Proof.
  intros Hrun.
  destruct (build_graph_Ok _ _ _ Hrun)
    as (_ & _ & _ & _ & _ & _ & _ & _ & _ & _ & _ & _ & His_a & Hmaps).
  rewrite His_a, Hmaps. split.
  - apply (elem_of_final_is_a _ _ (a, b)).
  - apply (elem_of_final_maps_to _ _ (a, b)).
Qed.

Lemma edges_exact_witness :
  build_graph (py 10) icd_sample = Ok icd_sample_graph ∧
  ((1, 8) ∈ is_a_rels icd_sample_graph ↔
   is_a_edge (relationships_df icd_sample) 1 8 ∧
   1 ∈ final_concept_ids icd_sample_graph ∧
   8 ∈ final_concept_ids icd_sample_graph) ∧
  ((1, 8) ∈ maps_to_rels icd_sample_graph ↔
   maps_to_edge (relationships_df icd_sample) 1 8 ∧
   1 ∈ final_concept_ids icd_sample_graph ∧
   8 ∈ final_concept_ids icd_sample_graph ∧ 1 ≠ 8).
Proof.
  split; [vm_compute; reflexivity|].
  apply (edges_exact (py 10) icd_sample). vm_compute. reflexivity.
Defined.

Lemma count_final_is_a rels ids a b :
  a ∈ ids → b ∈ ids →
  length (filter (λ e, e = (a, b)) (final_is_a rels ids)) =
  length (filter (λ r, relationship_id r = "Is a" ∧
                       concept_id_1 r = a ∧ concept_id_2 r = b) rels).
Proof.
  intros Ha Hb. unfold final_is_a.
  induction rels as [|r rels IH]; [done|].
  rewrite !filter_cons.
  destruct (decide (relationship_id r = "Is a" ∧ concept_id_1 r ∈ ids ∧
                    concept_id_2 r ∈ ids)) as [(Hid & H1 & H2)|Hnot].
  - rewrite fmap_cons, filter_cons.
    destruct (decide ((concept_id_1 r, concept_id_2 r) = (a, b))) as [Heq|Hne].
    + injection Heq as Heq1 Heq2. rewrite decide_True by done. simpl. by rewrite IH.
    + rewrite decide_False; [done|]. intros (_ & <- & <-). done.
  - rewrite decide_False; [done|]. intros (Hid & <- & <-). by destruct Hnot.
Qed.

(** X15.  Edges are not deduplicated: between two final concepts the sink
    receives as many IS_A edges as the relationship table has "Is a" rows for
    the pair. *)
Theorem is_a_rels_multiplicity rt inp g a b :
  build_graph rt inp = Ok g →
  a ∈ final_concept_ids g → b ∈ final_concept_ids g →
  length (filter (λ e, e = (a, b)) (is_a_rels g)) =
  length (filter (λ r, relationship_id r = "Is a" ∧
                       concept_id_1 r = a ∧ concept_id_2 r = b)
                 (relationships_df inp)).
Proof.
  intros Hrun Ha Hb.
  destruct (build_graph_Ok _ _ _ Hrun)
    as (_ & _ & _ & _ & _ & _ & _ & _ & _ & _ & _ & _ & His_a & _).
  rewrite His_a. by apply count_final_is_a.
Qed.

Lemma is_a_rels_multiplicity_witness :
  (build_graph (py 10) scenario = Ok scenario_graph ∧
   1 ∈ final_concept_ids scenario_graph ∧ 2 ∈ final_concept_ids scenario_graph) ∧
  length (filter (λ e, e = (1, 2)) (is_a_rels scenario_graph)) =
  length (filter (λ r, relationship_id r = "Is a" ∧
                       concept_id_1 r = 1 ∧ concept_id_2 r = 2)
                 (relationships_df scenario)).
Proof.
  split; [split_and!; vm_compute; reflexivity|].
  apply (is_a_rels_multiplicity (py 10) scenario scenario_graph 1 2);
    vm_compute; reflexivity.
Defined.

(** ** The batch loops *)

Lemma iloc_take_drop {A : Type} (df : list A) i step :
  iloc df i (i + step) = take step (drop i df).
Proof. unfold iloc. f_equal. lia. Qed.

Lemma range_from_lt fuel start stop step i :
  i ∈ range_from fuel start stop step → (i < stop)%nat.
Proof.
  revert start. induction fuel as [|fuel IH]; intros start; simpl.
  - by intros ?%elem_of_nil.
  - case_decide; [|by intros ?%elem_of_nil].
    intros [->|Hi]%elem_of_cons; [done|]. by eapply IH.
Qed.

Lemma range_from_concat {A : Type} (df : list A) step fuel : ∀ start,
  (0 < step)%nat → (length df - start ≤ fuel)%nat →
  concat ((λ i, iloc df i (i + step)) <$> range_from fuel start (length df) step)
  = drop start df.
Proof.
  induction fuel as [|fuel IH]; intros start Hstep Hfuel; simpl.
  - symmetry. apply drop_ge. lia.
  - case_decide as Hlt; simpl.
    + rewrite IH by lia. rewrite iloc_take_drop, <- drop_drop. apply take_drop.
    + symmetry. apply drop_ge. lia.
Qed.

Lemma range_from_length fuel step stop : ∀ start,
  (0 < step)%nat → (stop - start ≤ fuel)%nat →
  length (range_from fuel start stop step) = ((stop - start + step - 1) / step)%nat.
Proof.
  induction fuel as [|fuel IH]; intros start Hstep Hfuel; simpl.
  - symmetry. apply Nat.div_small. lia.
  - case_decide as Hlt; simpl.
    + rewrite IH by lia.
      replace (stop - start + step - 1)%nat
        with ((stop - start - 1) + 1 * step)%nat by lia.
      rewrite Nat.div_add by lia.
      destruct (decide (start + step ≤ stop)%nat).
      * replace (stop - (start + step) + step - 1)%nat
          with (stop - start - 1)%nat by lia. lia.
      * rewrite (Nat.div_small (stop - (start + step) + step - 1)) by lia.
        rewrite (Nat.div_small (stop - start - 1)) by lia. lia.
    + symmetry. apply Nat.div_small. lia.
Qed.

Lemma batch_size_pos : (0 < batch_size)%nat.
Proof. unfold batch_size. lia. Qed.

Lemma concat_batches {A : Type} (df : list A) : concat (batches df) = df.
Proof.
  unfold batches, range.
  rewrite range_from_concat; [done|apply batch_size_pos|lia].
Qed.

(** X16.  The batch loops lose, repeat and reorder nothing: the batches of
    a frame, one after the other, are the frame; and no batch is empty or
    has more than 1000 rows. *)
Theorem batches_partition {A : Type} (df : list A) :
  concat (batches df) = df ∧
  Forall (λ batch, (0 < length batch ≤ 1000)%nat) (batches df).
Proof.
  split; [apply concat_batches|].
  unfold batches. apply Forall_fmap, Forall_forall.
  intros i Hi%range_from_lt. simpl.
  rewrite iloc_take_drop, length_take, length_drop.
  change batch_size with 1000%nat. lia.
Qed.

(** X17.  The number of [session.run] calls of a batch loop is the
    [total_batches] that the loop computes for its log. *)
Theorem batches_count {A : Type} (df : list A) :
  length (batches df) = total_batches df.
Proof.
  unfold batches, range, total_batches. rewrite length_fmap.
  rewrite range_from_length; [|apply batch_size_pos|lia].
  by rewrite Nat.sub_0_r.
Qed.

(** ** The lookup dictionaries *)

Lemma lookup_dicts_nonempty rows x s :
  (lookup_dicts rows).1 !! x = Some s ∨ (lookup_dicts rows).2 !! x = Some s →
  ∃ y, y ∈ s.
Proof.
  revert s. induction rows as [|row rows IH] using rev_ind; intros s.
  - intros [H|H]; cbn in H; by rewrite lookup_empty in H.
  - rewrite lookup_dicts_snoc. simpl. unfold add_link.
    intros [H|H]; apply lookup_insert_Some in H as [[_ <-]|[_ H]];
      try (eexists; apply elem_of_union; right; by apply elem_of_singleton);
      apply IH; auto.
Qed.

(** X18.  The dictionaries [parents] and [children] are each other's
    inverse, and neither holds an empty set: [p] is in the parent set of [c]
    exactly when [c] is in the child set of [p], exactly when the table has
    an "Is a" row from [c] to [p]. *)
Theorem parents_children_inverse rels c p :
  (link (parents rels) c p ↔ link (children rels) p c) ∧
  (link (parents rels) c p ↔ is_a_edge rels c p) ∧
  (∀ s, parents rels !! c = Some s ∨ children rels !! c = Some s → s ≠ ∅).
Proof.
  split_and!.
  - rewrite parents_link, children_link. done.
  - apply parents_link.
  - intros s Hs. destruct (lookup_dicts_nonempty _ _ _ Hs) as [y Hy].
    intros ->. by apply not_elem_of_empty in Hy.
Qed.
